(** * ThemeManager: a shallow embedding of the theme switching module

    The module under study is the class [ThemeManager] of the portfolio
    site (dark/light theme switching with localStorage persistence).  Its
    methods read and write four pieces of the browser: [localStorage], the
    [prefers-color-scheme] media query, a handful of DOM nodes, and the
    console.  Every method is embedded as a computation in a state and
    exception monad over a record [World] that holds exactly those pieces
    together with the two fields of the instance ([this.themeToggle],
    [this.currentTheme]). *)

From stdpp Require Import base numbers strings list gmap pretty.

(** The course list of [script.js], the scroll, keyboard and menu
    behaviour of [NavbarComponent] and the component registry and
    announcer of [PortfolioApp] follow the theme module, each in a module
    of its own with its own state; their properties come after those of
    the theme module. *)


(** ** JavaScript values

    Most of the module only ever handles strings, and the embedding types
    those places with [string].  Three places depend on dynamic typing and
    use [JsValue]: the argument of [setTheme] (compared with [===]), the
    result of a property read on an object literal (which may come from
    [Object.prototype]) and the operand of [||]. *)

Inductive JsValue : Type :=
  | JsUndefined
  | JsNull
  | JsBool (b : bool)
  | JsNum (n : Z)                (* integral numbers only *)
  | JsStr (s : string)
  | JsNativeFn (name : string)   (* a built-in function object *)
  | JsObjectPrototype            (* the object [Object.prototype] *)
  | JsObject (ref : nat).        (* any other object, by reference *)

#[global] Instance JsValue_eq_dec : EqDecision JsValue.
Proof. solve_decision. Defined.

(** ToBoolean. *)
Definition truthy (v : JsValue) : bool :=
  match v with
  | JsUndefined | JsNull => false
  | JsBool b => b
  | JsNum n => negb (bool_decide (n = 0%Z))
  | JsStr s => negb (bool_decide (s = ""))
  | JsNativeFn _ | JsObjectPrototype | JsObject _ => true
  end.

(** [a || b] on already evaluated operands. *)
Definition js_or (a b : JsValue) : JsValue := if truthy a then a else b.

(** [a === b]: same type and same value (same reference for objects). *)
Definition strict_eq (a b : JsValue) : bool := bool_decide (a = b).

(** ToString, as applied by the DOM when a value is assigned to a string
    attribute.  The text of a built-in function is the one V8 prints; other
    engines differ in white space only.  Objects print through the default
    [Object.prototype.toString]. *)
Definition ToString (v : JsValue) : string :=
  match v with
  | JsUndefined => "undefined"
  | JsNull => "null"
  | JsBool true => "true"
  | JsBool false => "false"
  | JsNum n => pretty n
  | JsStr s => s
  | JsNativeFn name => "function " +:+ name +:+ "() { [native code] }"
  | JsObjectPrototype | JsObject _ => "[object Object]"
  end.

(** A value read from storage: a string, or [null]. *)
Definition of_nullable (r : option string) : JsValue :=
  match r with Some s => JsStr s | None => JsNull end.

(** ** Object literals

    An object literal [{ k1: v1, ... }] has its own properties and inherits
    from [Object.prototype]; a read [o[k]] that finds no own property goes
    up the prototype chain, and yields [undefined] only when the chain has
    no such property either. *)

Definition Object_prototype_methods : list string :=
  [ "toString"; "toLocaleString"; "valueOf"; "hasOwnProperty";
    "isPrototypeOf"; "propertyIsEnumerable"; "__defineGetter__";
    "__defineSetter__"; "__lookupGetter__"; "__lookupSetter__" ].

(** The properties an object literal inherits.  [constructor] is the
    function [Object]; the accessor [__proto__] returns the prototype of
    the receiver, which for an object literal is [Object.prototype]. *)
Definition inherited (k : string) : option JsValue :=
  if decide (k = "constructor") then Some (JsNativeFn "Object")
  else if decide (k = "__proto__") then Some JsObjectPrototype
  else if decide (k ∈ Object_prototype_methods) then Some (JsNativeFn k)
  else None.

(** [o[k]] for an object literal with own properties [own]. *)
Definition js_get (own : gmap string JsValue) (k : string) : JsValue :=
  match own !! k with
  | Some v => v
  | None => default JsUndefined (inherited k)
  end.

(** ** The browser and the instance *)

(** [localStorage]: its items, and whether reading or writing raises (a
    disabled storage raises on every access, a full one on writes). *)
Record Storage : Type := mkStorage {
  ls_items : gmap string string;
  ls_read_fault : option string;
  ls_write_fault : option string
}.

(** A [<meta>] element of [document.head]. *)
Record Meta : Type := mkMeta {
  meta_name : string;
  meta_content : string
}.

(** The element with id [theme-toggle]. *)
Record Toggle : Type := mkToggle {
  aria_label : option string;
  style_transform : string
}.

(** A dispatched [CustomEvent] with a [detail.theme]. *)
Record CustomEvent : Type := mkEvent {
  ev_type : string;
  ev_theme : string
}.

#[global] Instance Meta_eq_dec : EqDecision Meta.
Proof. solve_decision. Defined.
#[global] Instance Toggle_eq_dec : EqDecision Toggle.
Proof. solve_decision. Defined.
#[global] Instance CustomEvent_eq_dec : EqDecision CustomEvent.
Proof. solve_decision. Defined.

Record World : Type := mkWorld {
  (* window *)
  localStorage : Storage;
  matchMedia : option bool;      (* [None]: no [window.matchMedia];
                                    [Some b]: the dark-scheme query matches iff [b] *)
  timers : list nat;             (* delays of the pending [setTimeout] callbacks *)
  console : list (string * string);   (* [console.warn(message, error)] *)
  (* document *)
  data_theme : option string;    (* [data-theme] of [document.documentElement] *)
  head : list Meta;              (* the [<meta>] children of [document.head] *)
  toggle : option Toggle;        (* [document.getElementById("theme-toggle")] *)
  events : list CustomEvent;     (* events dispatched on [document], oldest first *)
  (* listeners registered by [init] *)
  click_listeners : nat;
  keydown_listeners : nat;
  media_listeners : nat;
  (* this *)
  themeToggle : bool;            (* [this.themeToggle] is not [null] *)
  currentTheme : string          (* [this.currentTheme] *)
}.

Definition set_items (f : gmap string string → gmap string string) (w : World) : World :=
  mkWorld
    (mkStorage (f (ls_items (localStorage w)))
               (ls_read_fault (localStorage w)) (ls_write_fault (localStorage w)))
    (matchMedia w) (timers w) (console w) (data_theme w) (head w) (toggle w)
    (events w) (click_listeners w) (keydown_listeners w) (media_listeners w)
    (themeToggle w) (currentTheme w).

Definition set_matchMedia (x : option bool) (w : World) : World :=
  mkWorld (localStorage w) x (timers w) (console w) (data_theme w) (head w)
    (toggle w) (events w) (click_listeners w) (keydown_listeners w)
    (media_listeners w) (themeToggle w) (currentTheme w).

Definition set_timers (f : list nat → list nat) (w : World) : World :=
  mkWorld (localStorage w) (matchMedia w) (f (timers w)) (console w)
    (data_theme w) (head w) (toggle w) (events w) (click_listeners w)
    (keydown_listeners w) (media_listeners w) (themeToggle w) (currentTheme w).

Definition set_console (f : list (string * string) → list (string * string))
    (w : World) : World :=
  mkWorld (localStorage w) (matchMedia w) (timers w) (f (console w))
    (data_theme w) (head w) (toggle w) (events w) (click_listeners w)
    (keydown_listeners w) (media_listeners w) (themeToggle w) (currentTheme w).

Definition set_data_theme (x : option string) (w : World) : World :=
  mkWorld (localStorage w) (matchMedia w) (timers w) (console w) x (head w)
    (toggle w) (events w) (click_listeners w) (keydown_listeners w)
    (media_listeners w) (themeToggle w) (currentTheme w).

Definition set_head (f : list Meta → list Meta) (w : World) : World :=
  mkWorld (localStorage w) (matchMedia w) (timers w) (console w)
    (data_theme w) (f (head w)) (toggle w) (events w) (click_listeners w)
    (keydown_listeners w) (media_listeners w) (themeToggle w) (currentTheme w).

Definition set_toggle (f : Toggle → Toggle) (w : World) : World :=
  mkWorld (localStorage w) (matchMedia w) (timers w) (console w)
    (data_theme w) (head w) (f <$> toggle w) (events w) (click_listeners w)
    (keydown_listeners w) (media_listeners w) (themeToggle w) (currentTheme w).

Definition set_events (f : list CustomEvent → list CustomEvent) (w : World) : World :=
  mkWorld (localStorage w) (matchMedia w) (timers w) (console w)
    (data_theme w) (head w) (toggle w) (f (events w)) (click_listeners w)
    (keydown_listeners w) (media_listeners w) (themeToggle w) (currentTheme w).

Definition set_listeners (c k m : nat) (w : World) : World :=
  mkWorld (localStorage w) (matchMedia w) (timers w) (console w)
    (data_theme w) (head w) (toggle w) (events w) c k m
    (themeToggle w) (currentTheme w).

Definition set_themeToggle (x : bool) (w : World) : World :=
  mkWorld (localStorage w) (matchMedia w) (timers w) (console w)
    (data_theme w) (head w) (toggle w) (events w) (click_listeners w)
    (keydown_listeners w) (media_listeners w) x (currentTheme w).

Definition set_currentTheme (x : string) (w : World) : World :=
  mkWorld (localStorage w) (matchMedia w) (timers w) (console w)
    (data_theme w) (head w) (toggle w) (events w) (click_listeners w)
    (keydown_listeners w) (media_listeners w) (themeToggle w) x.

(** ** The monad: state, and exceptions that [try]/[catch] can handle *)

Inductive Completion (A : Type) : Type :=
  | Normal (a : A)
  | Throw (error : string).
Arguments Normal {A} a.
Arguments Throw {A} error.

Definition M (A : Type) : Type := World → Completion A * World.

#[global] Instance M_ret : MRet M := λ A a w, (Normal a, w).

#[global] Instance M_bind : MBind M := λ A B f m w,
  match m w with
  | (Normal a, w') => f a w'
  | (Throw e, w') => (Throw e, w')
  end.

Definition try_catch {A} (body : M A) (handler : string → M A) : M A := λ w,
  match body w with
  | (Normal a, w') => (Normal a, w')
  | (Throw e, w') => handler e w'
  end.

Definition gets {A} (f : World → A) : M A := λ w, (Normal (f w), w).
Definition modify (f : World → World) : M unit := λ w, (Normal tt, f w).

(** The final state of a computation, and whether it completed normally. *)
Definition exec {A} (m : M A) (w : World) : World := (m w).2.
Definition returns {A} (m : M A) (w : World) : Prop := ∃ a, (m w).1 = Normal a.

(** ** Browser primitives *)

(** [localStorage.getItem(k)]: the item, [null] when there is none; raises
    when storage cannot be read. *)
Definition localStorage_getItem (k : string) : M (option string) := λ w,
  match ls_read_fault (localStorage w) with
  | Some e => (Throw e, w)
  | None => (Normal (ls_items (localStorage w) !! k), w)
  end.

(** [localStorage.setItem(k, v)]: raises, and writes nothing, when storage
    cannot be written. *)
Definition localStorage_setItem (k v : string) : M unit := λ w,
  match ls_write_fault (localStorage w) with
  | Some e => (Throw e, w)
  | None => (Normal tt, set_items (<[k := v]>) w)
  end.

Definition console_warn (message error : string) : M unit :=
  modify (set_console (λ l, l ++ [(message, error)])).

(** [document.dispatchEvent(new CustomEvent(type, { detail: { theme } }))].
    The listeners of the page for [themeChanged] (a screen-reader
    announcement and a console log) do not touch anything modelled here. *)
Definition dispatchEvent (type theme : string) : M unit :=
  modify (set_events (λ l, l ++ [mkEvent type theme])).

(** [setTimeout(callback, delay)]. *)
Definition setTimeout (delay : nat) : M unit :=
  modify (set_timers (λ l, l ++ [delay])).

Definition is_theme_color (m : Meta) : Prop := meta_name m = "theme-color".

#[global] Instance is_theme_color_dec m : Decision (is_theme_color m).
Proof. unfold is_theme_color. apply _. Defined.

(** [document.querySelector('meta[name="theme-color"]')]: the position in
    [document.head] of the first such element, which serves as the
    reference to it. *)
Definition querySelector_theme_color : M (option nat) :=
  gets (λ w, fst <$> list_find is_theme_color (head w)).

(** [createElement("meta")], [name = "theme-color"], [appendChild]. *)
Definition append_theme_color_meta : M nat :=
  ref ← gets (λ w, length (head w));
  modify (set_head (λ l, l ++ [mkMeta "theme-color" ""]));;
  mret ref.

Definition set_content (c : string) (m : Meta) : Meta := mkMeta (meta_name m) c.

(** What the page shows: the content of the first [theme-color] meta. *)
Definition chrome_color (w : World) : option string :=
  (meta_content ∘ snd) <$> list_find is_theme_color (head w).

(** ** The methods of [ThemeManager] *)

Definition getSystemTheme : M string :=
  mm ← gets matchMedia;
  if default false mm then mret "dark" else mret "light".

Definition getStoredTheme : M (option string) :=
  try_catch
    (localStorage_getItem "theme")
    (λ error, console_warn "localStorage not available:" error;; mret None).

Definition storeTheme (theme : string) : M unit :=
  try_catch
    (localStorage_setItem "theme" theme)
    (λ error, console_warn "Could not store theme preference:" error).

Definition colors : gmap string JsValue :=
  {[ "light" := JsStr "#ffffff"; "dark" := JsStr "#0f172a" ]}.

Definition updateMetaThemeColor (theme : string) : M unit :=
  found ← querySelector_theme_color;
  metaThemeColor ← match found with
                   | Some ref => mret ref
                   | None => append_theme_color_meta
                   end;
  modify (set_head
    (alter (set_content (ToString (js_or (js_get colors theme) (js_get colors "light"))))
           metaThemeColor)).

Definition updateToggleLabel : M unit :=
  themeToggle ← gets themeToggle;
  if themeToggle : bool then
    currentTheme ← gets currentTheme;
    let label := if decide (currentTheme = "dark")
                 then "Ativar modo claro" else "Ativar modo escuro" in
    modify (set_toggle (λ t, mkToggle (Some label) (style_transform t)))
  else mret tt.

Definition applyTheme (theme : string) : M unit :=
  modify (set_currentTheme theme);;
  modify (set_data_theme (Some theme));;
  updateMetaThemeColor theme;;
  storeTheme theme;;
  updateToggleLabel;;
  dispatchEvent "themeChanged" theme.

Definition toggleTheme : M unit :=
  currentTheme ← gets currentTheme;
  let newTheme := if decide (currentTheme = "dark") then "light" else "dark" in
  applyTheme newTheme;;
  themeToggle ← gets themeToggle;
  if themeToggle : bool then
    modify (set_toggle (λ t, mkToggle (aria_label t) "scale(0.95)"));;
    setTimeout 150
  else mret tt.

Definition getCurrentTheme : M string := gets currentTheme.

(** The guard admits strings only, so [applyTheme] receives the string
    itself. *)
Definition setTheme (theme : JsValue) : M unit :=
  if strict_eq theme (JsStr "dark") || strict_eq theme (JsStr "light")
  then applyTheme (ToString theme)
  else mret tt.

(** *** The callbacks registered by [init] *)

Definition on_click : M unit := toggleTheme.

(** [e.preventDefault()] has no effect on the modelled state. *)
Definition on_keydown (key : string) : M unit :=
  if bool_decide (key = "Enter") || bool_decide (key = " ")
  then toggleTheme
  else mret tt.

Definition on_system_change (matches : bool) : M unit :=
  stored ← getStoredTheme;
  if negb (truthy (of_nullable stored))
  then applyTheme (if matches then "dark" else "light")
  else mret tt.

Definition on_timeout : M unit :=
  modify (set_toggle (λ t, mkToggle (aria_label t) "scale(1)")).

Definition init : M unit :=
  currentTheme ← gets currentTheme;
  applyTheme currentTheme;;
  themeToggle ← gets themeToggle;
  (if themeToggle : bool then
     modify (λ w, set_listeners (S (click_listeners w)) (S (keydown_listeners w))
                                (media_listeners w) w)
   else mret tt);;
  mm ← gets matchMedia;
  (if mm is Some _ then
     modify (λ w, set_listeners (click_listeners w) (keydown_listeners w)
                                (S (media_listeners w)) w)
   else mret tt);;
  updateToggleLabel.

(** [new ThemeManager()].  Both fields of the instance are assigned before
    anything reads them, so their value in the state the constructor
    starts from is immaterial. *)
Definition constructor : M unit :=
  modify (λ w, set_themeToggle (bool_decide (is_Some (toggle w))) w);;
  stored ← getStoredTheme;
  theme ← (if truthy (of_nullable stored)
           then mret (ToString (of_nullable stored))
           else getSystemTheme);
  modify (set_currentTheme theme);;
  init.

(** ** The event loop

    What can happen to the page once the instance exists: the events the
    instance listens to, the timer it sets, and calls of its public
    methods through [window.themeManager]. *)

Inductive Action : Type :=
  | Click
  | KeyDown (key : string)
  | SystemChange (dark : bool)
  | Timeout
  | CallSetTheme (theme : JsValue)
  | CallToggleTheme.

(** Run a callback once per registered listener. *)
Fixpoint each_listener (n : nat) (callback : M unit) : M unit :=
  match n with
  | 0 => mret tt
  | S n' => callback;; each_listener n' callback
  end.

Definition step (a : Action) : M unit :=
  match a with
  | Click =>
      n ← gets click_listeners; each_listener n on_click
  | KeyDown key =>
      n ← gets keydown_listeners; each_listener n (on_keydown key)
  | SystemChange dark =>
      mm ← gets matchMedia;
      if mm is Some _ then
        modify (set_matchMedia (Some dark));;
        n ← gets media_listeners; each_listener n (on_system_change dark)
      else mret tt
  | Timeout =>
      pending ← gets timers;
      if pending is _ :: rest then modify (set_timers (λ _, rest));; on_timeout
      else mret tt
  | CallSetTheme theme => setTheme theme
  | CallToggleTheme => toggleTheme
  end.

Fixpoint run (l : list Action) : M unit :=
  match l with
  | [] => mret tt
  | a :: l' => step a;; run l'
  end.

(** ** Sample states *)

Definition fresh_storage : Storage := mkStorage ∅ None None.

(** A storage that reads but rejects every write. *)
Definition full_storage : Storage := mkStorage ∅ None (Some "QuotaExceededError").

Definition blank (ls : Storage) (mm : option bool) (tg : option Toggle) : World :=
  mkWorld ls mm [] [] None [] tg [] 0 0 0 false "".

Definition page (stored : option string) (os_dark : bool) : World :=
  blank (mkStorage (from_option (λ v, {[ "theme" := v ]}) ∅ stored) None None)
        (Some os_dark) (Some (mkToggle None "")).

(** ** State transformers and predicates

    The states the methods leave, written as functions, and the
    predicates the statements below use. *)

(** What [updateMetaThemeColor] does to [document.head] when it writes
    the content [c]. *)
Definition put_theme_color (c : string) (l : list Meta) : list Meta :=
  match list_find is_theme_color l with
  | Some (ref, _) => alter (set_content c) ref l
  | None => alter (set_content c) (length l) (l ++ [mkMeta "theme-color" ""])
  end.

(** The content [updateMetaThemeColor(theme)] writes. *)
Definition color_for (theme : string) : string :=
  ToString (js_or (js_get colors theme) (js_get colors "light")).

(** The state [storeTheme(theme)] leaves. *)
Definition stored (theme : string) (w : World) : World :=
  match ls_write_fault (localStorage w) with
  | None => set_items (<["theme" := theme]>) w
  | Some e => set_console (λ l, l ++ [("Could not store theme preference:", e)]) w
  end.

(** What [getStoredTheme()] returns. *)
Definition stored_theme (w : World) : option string :=
  match ls_read_fault (localStorage w) with
  | None => ls_items (localStorage w) !! "theme"
  | Some _ => None
  end.

(** The state [updateToggleLabel()] leaves. *)
Definition labelled (w : World) : World :=
  if themeToggle w then
    set_toggle (λ t, mkToggle
      (Some (if decide (currentTheme w = "dark")
             then "Ativar modo claro" else "Ativar modo escuro"))
      (style_transform t)) w
  else w.

(** The state [applyTheme(theme)] leaves: the composition of its effects. *)
Definition applied (theme : string) (w : World) : World :=
  set_events (λ l, l ++ [mkEvent "themeChanged" theme])
    (labelled
      (stored theme
        (set_head (put_theme_color (color_for theme))
          (set_data_theme (Some theme) (set_currentTheme theme w))))).

Arguments applied : simpl never.

(** The mode [toggleTheme] applies when the current one is [theme]. *)
Definition flipped (theme : string) : string :=
  if decide (theme = "dark") then "light" else "dark".

(** The press animation of [toggleTheme]. *)
Definition pressed (w : World) : World :=
  if themeToggle w then
    set_timers (λ l, l ++ [150])
      (set_toggle (λ t, mkToggle (aria_label t) "scale(0.95)") w)
  else w.

(** The listeners [init] registers. *)
Definition wired (w : World) : World :=
  let w1 := if themeToggle w
            then set_listeners (S (click_listeners w)) (S (keydown_listeners w))
                               (media_listeners w) w
            else w in
  if matchMedia w1 is Some _
  then set_listeners (click_listeners w1) (keydown_listeners w1)
                     (S (media_listeners w1)) w1
  else w1.

(** What [getSystemTheme()] returns. *)
Definition system_theme (w : World) : string :=
  if default false (matchMedia w) then "dark" else "light".

(** The state in which the constructor calls [init]. *)
Definition resolved (w : World) : World :=
  let w1 := set_themeToggle (bool_decide (is_Some (toggle w))) w in
  let w2 := (getStoredTheme w1).2 in
  let theme := if truthy (of_nullable (stored_theme w1))
               then ToString (of_nullable (stored_theme w1))
               else system_theme w2 in
  set_currentTheme theme w2.

(** The two modes of the specification. *)
Definition is_mode (theme : string) : Prop := theme = "light" ∨ theme = "dark".

#[global] Instance is_mode_dec theme : Decision (is_mode theme).
Proof. unfold is_mode. apply _. Defined.

(** Storage can be read and written. *)
Definition storage_works (w : World) : Prop :=
  ls_read_fault (localStorage w) = None ∧ ls_write_fault (localStorage w) = None.

(** Storage works and holds the current mode, a non-empty string. *)
Definition persisted (w : World) : Prop :=
  storage_works w
  ∧ ls_items (localStorage w) !! "theme" = Some (currentTheme w)
  ∧ currentTheme w ≠ "".

(** Computations that always return. *)
Definition total (m : M unit) : Prop := ∀ w, m w = (Normal tt, exec m w).

(** Computations that keep a property of the state. *)
Definition preserves (P : World → Prop) (m : M unit) : Prop :=
  ∀ w, P w → P (exec m w).

(** ** Predicates over runs of the event loop *)

(** The [aria-label] [updateToggleLabel] gives the toggle for a mode. *)
Definition label_for (theme : string) : string :=
  if decide (theme = "dark") then "Ativar modo claro" else "Ativar modo escuro".

(** The mode a system preference event reports. *)
Definition mode_of (dark : bool) : string := if dark then "dark" else "light".

(** Everything the page shows agrees with [this.currentTheme]: the
    [data-theme] attribute, the content of the [theme-color] meta, the
    label of the toggle when there is one, and the last event dispatched. *)
Definition in_sync (w : World) : Prop :=
  data_theme w = Some (currentTheme w)
  ∧ chrome_color w = Some (color_for (currentTheme w))
  ∧ (∀ t, toggle w = Some t →
          themeToggle w = true ∧ aria_label t = Some (label_for (currentTheme w)))
  ∧ last (events w) = Some (mkEvent "themeChanged" (currentTheme w)).



(** What a run can have done to storage that started as [s0]: the faults
    are as they were, items other than "theme" are as they were, and when
    writes raise so is "theme". *)
Definition storage_from (s0 : Storage) (w : World) : Prop :=
  ls_read_fault (localStorage w) = ls_read_fault s0
  ∧ ls_write_fault (localStorage w) = ls_write_fault s0
  ∧ (∀ k, k ≠ "theme" → ls_items (localStorage w) !! k = ls_items s0 !! k)
  ∧ (is_Some (ls_write_fault s0) → ls_items (localStorage w) = ls_items s0).

(** A page without the toggle on which nothing of the module is set up
    yet: no listener of its own, no pending timer. *)
Definition toggleless (w : World) : Prop :=
  toggle w = None ∧ themeToggle w = false
  ∧ click_listeners w = 0 ∧ keydown_listeners w = 0 ∧ timers w = [].

(** The [theme-color] metas of a [document.head], and the others. *)
Definition theme_color_metas (l : list Meta) : list Meta :=
  filter is_theme_color l.

Definition other_metas (l : list Meta) : list Meta :=
  filter (λ m, ¬ is_theme_color m) l.

(** * The course list ([script.js])

    [cursos()] shows or hides the secondary courses and relabels the
    button; [darkMode] follows a checkbox.  The page is modelled by the
    class lists of its elements, in document order, the [innerHTML] of the
    first [button.maisCursos] (absent when the page has none) and the
    class list of [document.body].  A class list is the set of its tokens;
    the order of the tokens in the [class] attribute is not modelled. *)

Module Script.

Record Page : Type := mkPage {
  elements : list (gset string);
  maisCursos : option string;
  body : gset string
}.

(** [classList.contains(token)] on the element at [ref]. *)
Definition contains (token : string) (ref : nat) (doc : list (gset string)) : bool :=
  match doc !! ref with
  | Some cl => bool_decide (token ∈ cl)
  | None => false
  end.

(** [classList.toggle(token)]. *)
Definition toggle_token (token : string) (cl : gset string) : gset string :=
  if decide (token ∈ cl) then cl ∖ {[token]} else cl ∪ {[token]}.

(** [classList.toggle(token, force)]. *)
Definition toggle_force (token : string) (force : bool) (cl : gset string) :
    gset string :=
  if force then cl ∪ {[token]} else cl ∖ {[token]}.

(** The references (positions) of the elements at positions [i], [i+1],
    ... that carry the class [c], in document order. *)
Fixpoint by_class_from (c : string) (i : nat) (doc : list (gset string)) : list nat :=
  match doc with
  | [] => []
  | cl :: doc' =>
      if decide (c ∈ cl) then i :: by_class_from c (S i) doc'
      else by_class_from c (S i) doc'
  end.

(** [document.getElementsByClassName(c)], read at one moment. *)
Definition getElementsByClassName (c : string) (doc : list (gset string)) : list nat :=
  by_class_from c 0 doc.

(** The loop over [itemsArray], a snapshot of the collection. *)
Fixpoint for_items (itemsArray : list nat) (isVisible : bool)
    (doc : list (gset string)) : bool * list (gset string) :=
  match itemsArray with
  | [] => (isVisible, doc)
  | item :: rest =>
      for_items rest
        (if contains "hidden" item doc then true else isVisible)
        (alter (toggle_token "hidden") item doc)
  end.

(** The assignment to [btn.innerHTML]; [btn] is [null] on a page without
    the button, and the assignment then raises. *)
Definition relabel (isVisible : bool) (p : Page) : Completion unit * Page :=
  match maisCursos p with
  | None => (Throw "TypeError", p)
  | Some _ =>
      (Normal tt,
       mkPage (elements p) (Some (if isVisible then "Ver Menos" else "Ver Mais"))
              (body p))
  end.

(** [cursos()], the version that copies the collection with [Array.from]. *)
Definition cursos (p : Page) : Completion unit * Page :=
  let itemsArray := getElementsByClassName "curso-secundario" (elements p) in
  let '(isVisible, doc) := for_items itemsArray false (elements p) in
  relabel isVisible (mkPage doc (maisCursos p) (body p)).

(** The loop of the version that indexes the live collection: [items.length]
    and [items[i]] are read from the document as it is at each turn.
    [fuel] bounds the number of turns. *)
Fixpoint for_live (fuel i : nat) (isVisible : bool) (doc : list (gset string)) :
    option (bool * list (gset string)) :=
  match fuel with
  | 0 => None
  | S fuel' =>
      match getElementsByClassName "curso-secundario" doc !! i with
      | None => Some (isVisible, doc)
      | Some item =>
          for_live fuel' (S i)
            (if contains "hidden" item doc then true else isVisible)
            (alter (toggle_token "hidden") item doc)
      end
  end.

(** [cursos()], the version on the live collection. *)
Definition cursos_live (fuel : nat) (p : Page) : option (Completion unit * Page) :=
  match for_live fuel 0 false (elements p) with
  | None => None
  | Some (isVisible, doc) =>
      Some (relabel isVisible (mkPage doc (maisCursos p) (body p)))
  end.

(** [darkMode(event)], with [event.target.checked]. *)
Definition darkMode (checked : bool) (p : Page) : Page :=
  mkPage (elements p) (maisCursos p) (toggle_force "dark-mode" checked (body p)).

(** A secondary course, and a hidden one. *)
Definition secondary (cl : gset string) : Prop := "curso-secundario" ∈ cl.
Definition hidden (cl : gset string) : Prop := "hidden" ∈ cl.

(** What [cursos()] does to one element. *)
Definition flip_course (cl : gset string) : gset string :=
  if decide (secondary cl) then toggle_token "hidden" cl else cl.

End Script.

(** * The navigation bar ([NavbarComponent])

    The methods of the component that work on the header, the navigation
    links and the scroll position.  The state holds what they read and
    write: of the window, the scroll position (in CSS pixels), the
    listeners for [scroll], the callbacks queued with
    [requestAnimationFrame], the last [window.scrollTo], what was pushed
    on the history and which navigation link has focus; of the document,
    the header ([this.header], [null] when the page has none), the links
    ([this.navLinks]) and the offset of every element that has an id; and
    the variable [ticking] of [initScrollEffects]. *)

(** State and exceptions over any state. *)
Definition Eff (S A : Type) : Type := S → Completion A * S.

(** What the browser does with a list of callbacks: each one runs; an
    exception from one is reported and does not keep the next from
    running.  The result is [Throw] when some callback raised. *)
Fixpoint sequence {S} (l : list (Eff S unit)) : Eff S unit :=
  match l with
  | [] => λ s, (Normal tt, s)
  | m :: l' => λ s,
      match m s with
      | (Normal _, s') => sequence l' s'
      | (Throw e, s') => (Throw e, (sequence l' s').2)
      end
  end.

Module Navbar.

Record Header : Type := mkHeader {
  classList : gset string;
  transform : string;            (* [style.transform] *)
  offsetHeight : Z
}.

Record Link : Type := mkLink {
  href : option string;          (* [getAttribute('href')] *)
  link_classes : gset string
}.

(** The functions that can be listeners: the closure [requestTick] and the
    closure [updateHeader] of [initScrollEffects]. *)
Inductive Callback : Type := RequestTick | UpdateHeader.

#[global] Instance Callback_eq_dec : EqDecision Callback.
Proof. solve_decision. Defined.

Record Nav : Type := mkNav {
  scrollY : Z;
  offsets : gmap string Z;       (* [offsetTop] of the element with a given id *)
  scroll_listeners : list Callback;
  frames : list Callback;        (* queued with [requestAnimationFrame] *)
  scrolled_to : option Z;        (* [top] of the last [window.scrollTo] *)
  history : list string;         (* urls given to [history.pushState] *)
  focused : option nat;          (* the navigation link that has focus *)
  header : option Header;
  navLinks : list Link;
  lastScrollY : Z;
  scrollThreshold : Z;
  ticking : bool
}.

Definition set_scrollY (y : Z) (s : Nav) : Nav :=
  mkNav y (offsets s) (scroll_listeners s) (frames s) (scrolled_to s) (history s)
    (focused s) (header s) (navLinks s) (lastScrollY s) (scrollThreshold s)
    (ticking s).

Definition set_scroll_listeners (l : list Callback) (s : Nav) : Nav :=
  mkNav (scrollY s) (offsets s) l (frames s) (scrolled_to s) (history s)
    (focused s) (header s) (navLinks s) (lastScrollY s) (scrollThreshold s)
    (ticking s).

Definition set_frames (l : list Callback) (s : Nav) : Nav :=
  mkNav (scrollY s) (offsets s) (scroll_listeners s) l (scrolled_to s) (history s)
    (focused s) (header s) (navLinks s) (lastScrollY s) (scrollThreshold s)
    (ticking s).

Definition set_focused (i : option nat) (s : Nav) : Nav :=
  mkNav (scrollY s) (offsets s) (scroll_listeners s) (frames s) (scrolled_to s)
    (history s) i (header s) (navLinks s) (lastScrollY s) (scrollThreshold s)
    (ticking s).

Definition set_header (h : Header) (s : Nav) : Nav :=
  mkNav (scrollY s) (offsets s) (scroll_listeners s) (frames s) (scrolled_to s)
    (history s) (focused s) (Some h) (navLinks s) (lastScrollY s)
    (scrollThreshold s) (ticking s).

Definition set_navLinks (l : list Link) (s : Nav) : Nav :=
  mkNav (scrollY s) (offsets s) (scroll_listeners s) (frames s) (scrolled_to s)
    (history s) (focused s) (header s) l (lastScrollY s) (scrollThreshold s)
    (ticking s).

Definition set_lastScrollY (y : Z) (s : Nav) : Nav :=
  mkNav (scrollY s) (offsets s) (scroll_listeners s) (frames s) (scrolled_to s)
    (history s) (focused s) (header s) (navLinks s) y (scrollThreshold s)
    (ticking s).

Definition set_ticking (b : bool) (s : Nav) : Nav :=
  mkNav (scrollY s) (offsets s) (scroll_listeners s) (frames s) (scrolled_to s)
    (history s) (focused s) (header s) (navLinks s) (lastScrollY s)
    (scrollThreshold s) b.

Definition set_scrolled_to (y : Z) (url : string) (s : Nav) : Nav :=
  mkNav (scrollY s) (offsets s) (scroll_listeners s) (frames s) (Some y)
    (history s ++ [url]) (focused s) (header s) (navLinks s) (lastScrollY s)
    (scrollThreshold s) (ticking s).

(** ** Scroll effects *)

Definition hidden_transform : string := "translateY(-100%)".
Definition shown_transform : string := "translateY(0)".

(** The closure [updateHeader].  It dereferences [this.header]. *)
Definition updateHeader : Eff Nav unit := λ s,
  match header s with
  | None => (Throw "TypeError", s)
  | Some h =>
      let currentScrollY := scrollY s in
      let h1 :=
        if decide (50 < currentScrollY)%Z
        then mkHeader (classList h ∪ {["scrolled"]}) (transform h) (offsetHeight h)
        else mkHeader (classList h ∖ {["scrolled"]}) (transform h) (offsetHeight h) in
      let h2 :=
        if decide (scrollThreshold s < currentScrollY)%Z then
          if decide (lastScrollY s < currentScrollY ∧ 200 < currentScrollY)%Z
          then mkHeader (classList h1) hidden_transform (offsetHeight h1)
          else mkHeader (classList h1) shown_transform (offsetHeight h1)
        else h1 in
      (Normal tt, set_ticking false (set_lastScrollY currentScrollY (set_header h2 s)))
  end.

(** The closure [requestTick]. *)
Definition requestTick : Eff Nav unit := λ s,
  if ticking s then (Normal tt, s)
  else (Normal tt, set_ticking true (set_frames (frames s ++ [UpdateHeader]) s)).

Definition call (c : Callback) : Eff Nav unit :=
  match c with
  | RequestTick => requestTick
  | UpdateHeader => updateHeader
  end.

Definition initScrollEffects : Eff Nav unit := λ s,
  let s1 := set_ticking false s in
  let s2 := set_scroll_listeners (scroll_listeners s1 ++ [RequestTick]) s1 in
  updateHeader s2.

(** [removeEventListener('scroll', callback)]; a [callback] that is not a
    function ([undefined]) removes nothing. *)
Fixpoint remove_first (c : Callback) (l : list Callback) : list Callback :=
  match l with
  | [] => []
  | c' :: l' => if decide (c' = c) then l' else c' :: remove_first c l'
  end.

Definition removeScrollListener (callback : option Callback) (s : Nav) : Nav :=
  match callback with
  | None => s
  | Some c => set_scroll_listeners (remove_first c (scroll_listeners s)) s
  end.

(** [this.updateHeader]: the class has no such member, and the closure of
    [initScrollEffects] is never stored on the instance. *)
Definition this_updateHeader : option Callback := None.

Definition destroy : Eff Nav unit := λ s,
  (Normal tt, removeScrollListener this_updateHeader s).

(** What the browser does with the component in place: the page scrolls
    to a position and the [scroll] listeners run; an animation frame
    starts and the callbacks queued until then run; [destroy] is called. *)
Inductive Event : Type :=
  | Scroll (y : Z)
  | Frame
  | Destroy.

Definition dispatch (e : Event) : Eff Nav unit :=
  match e with
  | Scroll y => λ s,
      sequence (call <$> scroll_listeners s) (set_scrollY y s)
  | Frame => λ s,
      sequence (call <$> frames s) (set_frames [] s)
  | Destroy => destroy
  end.

Definition dispatch_all (l : list Event) : Eff Nav unit := sequence (dispatch <$> l).

(** ** Keyboard navigation *)

(** [this.navLinks[i].focus()].  The links are taken to be focusable
    elements, as anchors with an [href] are. *)
Definition focus_link (i : nat) : Eff Nav unit := λ s,
  if decide (i < length (navLinks s)) then (Normal tt, set_focused (Some i) s)
  else (Throw "TypeError", s).

(** The [keydown] listener of the link at [index]. *)
Definition link_keydown (index : nat) (key : string) : Eff Nav unit := λ s,
  if decide (key = "ArrowRight" ∨ key = "ArrowDown") then
    focus_link ((index + 1) mod length (navLinks s)) s
  else if decide (key = "ArrowLeft" ∨ key = "ArrowUp") then
    focus_link (if decide (index = 0) then length (navLinks s) - 1 else index - 1) s
  else if decide (key = "Home") then focus_link 0 s
  else if decide (key = "End") then focus_link (length (navLinks s) - 1) s
  else (Normal tt, s).

(** A key pressed while a navigation link has focus goes to that link's
    listener. *)
Definition press (key : string) : Eff Nav unit := λ s,
  match focused s with
  | Some index => link_keydown index key s
  | None => (Normal tt, s)
  end.

(** ** Active item and scrolling to a section *)

Definition activate (sectionId : string) (link : Link) : Link :=
  let removed := link_classes link ∖ {["active"]} in
  if decide (href link = Some ("#" +:+ sectionId))
  then mkLink (href link) (removed ∪ {["active"]})
  else mkLink (href link) removed.

Definition setActiveNavItem (sectionId : string) : Eff Nav unit := λ s,
  (Normal tt, set_navLinks (activate sectionId <$> navLinks s) s).

(** [document.getElementById(id)], as its [offsetTop]; no element has the
    empty id. *)
Definition getElementById (id : string) (s : Nav) : option Z :=
  if decide (id = "") then None else offsets s !! id.

Definition scrollToSection (sectionId : string) : Eff Nav unit := λ s,
  match getElementById sectionId s with
  | None => (Normal tt, s)
  | Some offsetTop =>
      match header s with
      | None => (Throw "TypeError", s)
      | Some h =>
          let targetPosition := (offsetTop - offsetHeight h - 20)%Z in
          (Normal tt,
           set_scrolled_to targetPosition ("#" +:+ sectionId)
             (set_navLinks (activate sectionId <$> navLinks s) s))
      end
  end.

(** ** The mobile menu

    The closures of [initMobileMenu], which exist when the page has both
    the toggle and the menu.  [focusable] counts the focusable elements of
    the menu; [activeElement] is the position, among them, of the element
    that has focus. *)

Inductive Handler : Type := TrapClosure | TrapFocusMethod.

#[global] Instance Handler_eq_dec : EqDecision Handler.
Proof. solve_decision. Defined.

Record Menu : Type := mkMenu {
  isOpen : bool;
  menu_classes : gset string;
  aria_expanded : option string;
  menu_keydown : list Handler;   (* the [keydown] listeners of the menu *)
  focusable : nat;
  activeElement : option nat
}.

(** [trapFocus(element)]: the listener is added, then the first focusable
    element, [undefined] when there is none, is asked to take focus. *)
Definition trapFocus : Eff Menu unit := λ m,
  let m1 := mkMenu (isOpen m) (menu_classes m) (aria_expanded m)
                   (menu_keydown m ++ [TrapClosure]) (focusable m)
                   (activeElement m) in
  if decide (focusable m = 0) then (Throw "TypeError", m1)
  else (Normal tt,
        mkMenu (isOpen m1) (menu_classes m1) (aria_expanded m1) (menu_keydown m1)
               (focusable m1) (Some 0)).

Fixpoint remove_handler (h : Handler) (l : list Handler) : list Handler :=
  match l with
  | [] => []
  | h' :: l' => if decide (h' = h) then l' else h' :: remove_handler h l'
  end.

(** [releaseFocus()]: asks to remove the method [this.trapFocus]. *)
Definition releaseFocus : Eff Menu unit := λ m,
  (Normal tt,
   mkMenu (isOpen m) (menu_classes m) (aria_expanded m)
          (remove_handler TrapFocusMethod (menu_keydown m)) (focusable m)
          (activeElement m)).

Definition toggleMenu : Eff Menu unit := λ m,
  let open := negb (isOpen m) in
  let m1 := mkMenu open
              (if open then menu_classes m ∪ {["open"]}
               else menu_classes m ∖ {["open"]})
              (Some (if open then "true" else "false"))
              (menu_keydown m) (focusable m) (activeElement m) in
  if open then trapFocus m1 else releaseFocus m1.

(** A click on the toggle; a click outside the menu and the toggle; the
    key Escape. *)
Inductive MenuEvent : Type := ToggleClick | OutsideClick | Escape.

Definition menu_dispatch (e : MenuEvent) : Eff Menu unit :=
  match e with
  | ToggleClick => toggleMenu
  | OutsideClick | Escape => λ m,
      if isOpen m then toggleMenu m else (Normal tt, m)
  end.

End Navbar.

(** ** Predicates on the navigation bar *)

(** The link the listener of the link at [index] moves focus to. *)
Definition nav_target (n index : nat) (key : string) : nat :=
  if decide (key = "ArrowRight" ∨ key = "ArrowDown") then (index + 1) mod n
  else if decide (key = "ArrowLeft" ∨ key = "ArrowUp") then
    if decide (index = 0) then n - 1 else index - 1
  else if decide (key = "Home") then 0
  else if decide (key = "End") then n - 1
  else index.

(** The scroll effects are set up, on a page with a header: [requestTick]
    is the one listener for [scroll], and [ticking] tells whether an
    [updateHeader] is queued for the next frame. *)
Definition scroll_ready (s : Navbar.Nav) : Prop :=
  Navbar.scroll_listeners s = [Navbar.RequestTick]
  ∧ is_Some (Navbar.header s)
  ∧ ((Navbar.ticking s = false ∧ Navbar.frames s = [])
     ∨ (Navbar.ticking s = true ∧ Navbar.frames s = [Navbar.UpdateHeader])).

(** The header is slid out of view. *)
Definition header_hidden (s : Navbar.Nav) : Prop :=
  Navbar.transform <$> Navbar.header s = Some Navbar.hidden_transform.

(** A state as the constructor of the component leaves it before [init]
    on a page where nothing listens to [scroll] yet. *)
Definition constructed (s : Navbar.Nav) : Prop :=
  Navbar.lastScrollY s = Navbar.scrollY s
  ∧ Navbar.scrollThreshold s = 100%Z
  ∧ Navbar.scroll_listeners s = []
  ∧ Navbar.frames s = [].

(** Positions of a list of events. *)
Definition scrolls_within (bound : Z) (l : list Navbar.Event) : Prop :=
  ∀ y, Navbar.Scroll y ∈ l → (y ≤ bound)%Z.

(** * The application object ([PortfolioApp])

    The component registry and the screen-reader announcer. *)

Module App.

(** [this.components], created as [{}]: its own properties, and whether
    it still inherits from [Object.prototype] (an assignment of [null] to
    [__proto__] cuts it off). *)
Record Registry : Type := mkRegistry {
  own : gmap string JsValue;
  inherits : bool
}.

(** [this.components = {}]. *)
Definition empty_components : Registry := mkRegistry ∅ true.

Definition is_object (v : JsValue) : bool :=
  match v with
  | JsNativeFn _ | JsObjectPrototype | JsObject _ => true
  | _ => false
  end.

(** [registerComponent(name, component)]: the assignment
    [this.components[name] = component].  Under the name [__proto__], as
    long as the registry inherits the accessor of [Object.prototype], the
    assignment sets the prototype: it is ignored for a primitive value,
    cuts the registry off for [null], and for an object makes that object
    the prototype, whose properties this model does not hold; the result
    is then [None]. *)
Definition registerComponent (name : string) (component : JsValue)
    (r : Registry) : option Registry :=
  match own r !! name with
  | Some _ => Some (mkRegistry (<[name := component]> (own r)) (inherits r))
  | None =>
      if decide (name = "__proto__") then
        if inherits r then
          if is_object component then None
          else if decide (component = JsNull) then Some (mkRegistry (own r) false)
          else Some r
        else Some (mkRegistry (<[name := component]> (own r)) (inherits r))
      else Some (mkRegistry (<[name := component]> (own r)) (inherits r))
  end.

(** [getComponent(name)]: the read [this.components[name]]. *)
Definition getComponent (name : string) (r : Registry) : JsValue :=
  if inherits r then js_get (own r) name
  else default JsUndefined (own r !! name).

(** ** The announcer

    [document.body] holds nodes, each with an identity and a text; a timer
    set by [announceToScreenReader] holds the node it will remove. *)

Record Body : Type := mkBody {
  children : list (nat * string);
  created : nat;                 (* how many nodes [createElement] has made *)
  removals : list nat            (* the nodes of the pending timers, oldest first *)
}.

(** [announceToScreenReader(message)]. *)
Definition announceToScreenReader (message : string) (b : Body) : Body :=
  let announcement := created b in
  mkBody (children b ++ [(announcement, message)]) (S (created b))
         (removals b ++ [announcement]).

(** [document.body.removeChild(node)] raises when [node] is not a child. *)
Definition removeChild (node : nat) : Eff Body unit := λ b,
  if decide (node ∈ (children b).*1)
  then (Normal tt,
        mkBody (filter (λ c, c.1 ≠ node) (children b)) (created b) (removals b))
  else (Throw "NotFoundError", b).

(** The oldest pending timer fires. *)
Definition timer_fires : Eff Body unit := λ b,
  match removals b with
  | [] => (Normal tt, b)
  | node :: rest => removeChild node (mkBody (children b) (created b) rest)
  end.

(** The listener for [themeChanged]. *)
Definition on_themeChanged (theme : string) (b : Body) : Body :=
  announceToScreenReader
    ("Tema alterado para modo " +:+ (if decide (theme = "dark") then "escuro" else "claro"))
    b.

(** What happens to the body: a call of [announceToScreenReader], a
    [themeChanged] event, the oldest pending timer firing. *)
Inductive BodyEvent : Type :=
  | Announce (message : string)
  | ThemeChanged (theme : string)
  | TimerFires.

Definition body_dispatch (e : BodyEvent) : Eff Body unit :=
  match e with
  | Announce message => λ b, (Normal tt, announceToScreenReader message b)
  | ThemeChanged theme => λ b, (Normal tt, on_themeChanged theme b)
  | TimerFires => timer_fires
  end.

End App.

(** The children of a body are [base] followed by the announcements still
    to be removed, in the order of their timers; the nodes are distinct
    and were all made by [createElement]. *)
Definition announcing (base : list (nat * string)) (b : App.Body) : Prop :=
  ∃ pending : list (nat * string),
    App.children b = base ++ pending
    ∧ pending.*1 = App.removals b
    ∧ NoDup (App.children b).*1
    ∧ ∀ node, node ∈ (App.children b).*1 → node < App.created b.

(** * Properties *)

(** ** The first [theme-color] meta of a list of metas *)

Section Head.
Implicit Types (l : list Meta) (c : string).

Lemma put_theme_color_absent c l :
  list_find is_theme_color l = None →
  put_theme_color c l = l ++ [mkMeta "theme-color" c].
Proof.
  intros E. unfold put_theme_color. rewrite E.
  apply list_eq. intros j.
  destruct (decide (j = length l)) as [->|Hne].
  - rewrite list_lookup_alter_eq, !list_lookup_middle by done. done.
  - rewrite list_lookup_alter_ne by done.
    destruct (decide (j < length l)).
    + by rewrite !lookup_app_l by done.
    + rewrite !lookup_app_r by lia.
      destruct (j - length l) as [|k] eqn:Ek; [lia | done].
Qed.

Lemma list_find_put_theme_color c l :
  ∃ ref, list_find is_theme_color (put_theme_color c l)
         = Some (ref, mkMeta "theme-color" c).
Proof.
  destruct (list_find is_theme_color l) as [[i m]|] eqn:E.
  - exists i. unfold put_theme_color. rewrite E.
    apply list_find_Some in E as (Hi & Hm & Hleast).
    apply list_find_Some. split_and!.
    + rewrite list_lookup_alter_eq, Hi. simpl. unfold set_content.
      by rewrite Hm.
    + done.
    + intros j y Hj Hlt. rewrite list_lookup_alter_ne in Hj by lia. eauto.
  - exists (length l). rewrite put_theme_color_absent by done.
    rewrite list_find_app_r by done. simpl.
    done.
Qed.

Lemma put_theme_color_idemp c l :
  put_theme_color c (put_theme_color c l) = put_theme_color c l.
Proof.
  destruct (list_find_put_theme_color c l) as [i E].
  unfold put_theme_color at 1. rewrite E.
  apply list_find_Some in E as (Hi & _).
  apply list_eq. intros j. destruct (decide (i = j)) as [<-|].
  - by rewrite list_lookup_alter_eq, Hi.
  - by rewrite list_lookup_alter_ne.
Qed.
End Head.

(** ** Equations of the primitives and of the small methods *)

Lemma getStoredTheme_eq w :
  getStoredTheme w =
    (Normal (stored_theme w),
     match ls_read_fault (localStorage w) with
     | None => w
     | Some e => set_console (λ l, l ++ [("localStorage not available:", e)]) w
     end).
Proof.
  unfold getStoredTheme, stored_theme, try_catch, localStorage_getItem.
  by destruct (ls_read_fault _).
Qed.

Lemma storeTheme_eq theme w : storeTheme theme w = (Normal tt, stored theme w).
Proof.
  unfold storeTheme, stored, try_catch, localStorage_setItem.
  by destruct (ls_write_fault _).
Qed.

Lemma updateMetaThemeColor_eq theme w :
  updateMetaThemeColor theme w
  = (Normal tt, set_head (put_theme_color (color_for theme)) w).
Proof.
  unfold updateMetaThemeColor, querySelector_theme_color,
    append_theme_color_meta, put_theme_color, color_for.
  unfold mbind, M_bind, mret, M_ret, gets, modify, set_head. simpl.
  by destruct (list_find is_theme_color (head w)) as [[i m]|].
Qed.

Lemma updateToggleLabel_eq w : updateToggleLabel w = (Normal tt, labelled w).
Proof.
  unfold updateToggleLabel, labelled, mbind, M_bind, mret, M_ret, gets, modify.
  simpl. by destruct (themeToggle w).
Qed.

Lemma applyTheme_eq theme w : applyTheme theme w = (Normal tt, applied theme w).
Proof.
  unfold applyTheme, applied, dispatchEvent.
  unfold mbind, M_bind, modify. simpl.
  rewrite updateMetaThemeColor_eq. rewrite storeTheme_eq.
  rewrite updateToggleLabel_eq. done.
Qed.

(** Case analysis over a state: name its fields, unfold the state
    transformers, and split on what they branch on. *)
Ltac world_cases w :=
  destruct w as [[items rfault wfault] mm tm cs dt hd tg ev cl kl ml tgl cur];
  unfold applied, labelled, stored, stored_theme, chrome_color;
  simpl in *; subst;
  repeat case_match; simpl in *; try done.

Section Applied.
Context (theme : string) (w : World).

Lemma currentTheme_applied : currentTheme (applied theme w) = theme.
Proof. by world_cases w. Qed.

Lemma data_theme_applied : data_theme (applied theme w) = Some theme.
Proof. by world_cases w. Qed.

Lemma head_applied :
  head (applied theme w) = put_theme_color (color_for theme) (head w).
Proof. by world_cases w. Qed.

Lemma chrome_color_applied :
  chrome_color (applied theme w) = Some (color_for theme).
Proof.
  unfold chrome_color. rewrite head_applied.
  destruct (list_find_put_theme_color (color_for theme) (head w)) as [i ->].
  done.
Qed.

Lemma events_applied :
  events (applied theme w) = events w ++ [mkEvent "themeChanged" theme].
Proof. by world_cases w. Qed.

Lemma items_applied :
  ls_write_fault (localStorage w) = None →
  ls_items (localStorage (applied theme w))
  = <["theme" := theme]> (ls_items (localStorage w)).
Proof. by world_cases w. Qed.

Lemma faults_applied :
  ls_read_fault (localStorage (applied theme w)) = ls_read_fault (localStorage w)
  ∧ ls_write_fault (localStorage (applied theme w))
    = ls_write_fault (localStorage w).
Proof. by world_cases w. Qed.

End Applied.

(** ** Equations of [toggleTheme], [init] and the constructor *)

Lemma toggleTheme_eq w :
  toggleTheme w = (Normal tt, pressed (applied (flipped (currentTheme w)) w)).
Proof.
  unfold toggleTheme, setTimeout.
  unfold mbind, M_bind, mret, M_ret, gets, modify. simpl.
  rewrite applyTheme_eq. unfold pressed, flipped.
  by destruct (themeToggle (applied _ w)).
Qed.

Lemma init_eq w :
  init w = (Normal tt, labelled (wired (applied (currentTheme w) w))).
Proof.
  unfold init.
  unfold mbind, M_bind, mret, M_ret, gets, modify. simpl.
  rewrite applyTheme_eq. unfold wired.
  destruct (themeToggle (applied _ w)); cbv beta iota;
    (destruct (matchMedia _); cbv beta iota; by rewrite updateToggleLabel_eq).
Qed.

Lemma getSystemTheme_eq w : getSystemTheme w = (Normal (system_theme w), w).
Proof.
  unfold getSystemTheme, system_theme, mbind, M_bind, mret, M_ret, gets.
  by destruct (default false (matchMedia w)).
Qed.

Lemma constructor_eq w :
  constructor w
  = (Normal tt, labelled (wired (applied (currentTheme (resolved w)) (resolved w)))).
Proof.
  unfold constructor, resolved.
  unfold mbind at 1 2 3 4, M_bind, modify. simpl.
  rewrite getStoredTheme_eq. simpl.
  destruct (truthy (of_nullable _)); unfold mret, M_ret; simpl.
  - by rewrite init_eq.
  - rewrite getSystemTheme_eq. by rewrite init_eq.
Qed.

Lemma currentTheme_labelled_wired w :
  currentTheme (labelled (wired w)) = currentTheme w.
Proof.
  unfold labelled, wired.
  destruct w as [[items rfault wfault] mm tm cs dt hd tg ev cl kl ml tgl cur].
  simpl. by repeat case_match.
Qed.

Lemma storage_labelled_wired w :
  localStorage (labelled (wired w)) = localStorage w.
Proof.
  unfold labelled, wired.
  destruct w as [[items rfault wfault] mm tm cs dt hd tg ev cl kl ml tgl cur].
  simpl. by repeat case_match.
Qed.

(** The mode the constructor settles on is the one it resolved. *)
Lemma currentTheme_constructor w :
  currentTheme (exec constructor w) = currentTheme (resolved w).
Proof.
  unfold exec. rewrite constructor_eq. simpl.
  by rewrite currentTheme_labelled_wired, currentTheme_applied.
Qed.

Lemma constructor_returns w : returns constructor w.
Proof. exists tt. by rewrite constructor_eq. Qed.

(** ** Startup *)

(** C1.  Whenever [localStorage] holds "light" or "dark" under the key
    "theme", the constructor leaves [currentTheme] equal to that stored
    value, whatever the operating system reports ([os] ranges over a
    matching query, a non-matching one, and no [matchMedia] at all). *)
Theorem startup_uses_stored_theme (w : World) (os : option bool) (v : string) :
  ls_read_fault (localStorage w) = None →
  ls_items (localStorage w) !! "theme" = Some v →
  is_mode v →
  returns constructor (set_matchMedia os w)
  ∧ currentTheme (exec constructor (set_matchMedia os w)) = v.
Proof.
  intros Hread Hitem Hmode. split; [apply constructor_returns|].
  rewrite currentTheme_constructor. unfold resolved.
  rewrite getStoredTheme_eq. unfold stored_theme. simpl.
  rewrite Hread, Hitem. simpl.
  by destruct Hmode as [-> | ->].
Qed.

Lemma startup_uses_stored_theme_witness :
  returns constructor (set_matchMedia (Some true) (page (Some "light") false))
  ∧ currentTheme (exec constructor (set_matchMedia (Some true) (page (Some "light") false)))
    = "light".
Proof.
  apply (startup_uses_stored_theme (page (Some "light") false) (Some true) "light").
  - reflexivity.
  - reflexivity.
  - left. reflexivity.
Defined.

(** C2.  With nothing stored under "theme", the constructor leaves
    [currentTheme] equal to what the operating system reports: "dark" when
    the dark-scheme query matches, "light" when it does not; and without
    [window.matchMedia], [getSystemTheme] answers "light" and so does the
    constructor. *)
Theorem startup_follows_system (w : World) :
  ls_items (localStorage w) !! "theme" = None →
  returns constructor w
  ∧ (matchMedia w = Some true → currentTheme (exec constructor w) = "dark")
  ∧ (matchMedia w = Some false → currentTheme (exec constructor w) = "light")
  ∧ (matchMedia w = None →
       getSystemTheme w = (Normal "light", w)
       ∧ currentTheme (exec constructor w) = "light").
Proof.
  intros Hitem. split; [apply constructor_returns|].
  rewrite currentTheme_constructor, getSystemTheme_eq.
  unfold resolved. rewrite getStoredTheme_eq. unfold stored_theme, system_theme.
  simpl. rewrite Hitem.
  destruct (ls_read_fault _); simpl; split_and!; by intros ->.
Qed.

Lemma startup_follows_system_witness :
  ls_items (localStorage (page None true)) !! "theme" = None
  ∧ currentTheme (exec constructor (page None true)) = "dark".
Proof.
  split; [reflexivity|].
  apply (startup_follows_system (page None true)); reflexivity.
Defined.

(** ** [toggleTheme] and [applyTheme] *)

Lemma storage_pressed w : localStorage (pressed w) = localStorage w.
Proof. unfold pressed. by destruct w as [? ? ? ? ? ? ? ? ? ? ? [] ?]. Qed.

Lemma currentTheme_pressed w : currentTheme (pressed w) = currentTheme w.
Proof. unfold pressed. by destruct w as [? ? ? ? ? ? ? ? ? ? ? [] ?]. Qed.

Lemma events_pressed w : events (pressed w) = events w.
Proof. unfold pressed. by destruct w as [? ? ? ? ? ? ? ? ? ? ? [] ?]. Qed.

Lemma currentTheme_toggleTheme w :
  currentTheme (exec toggleTheme w) = flipped (currentTheme w).
Proof.
  unfold exec. rewrite toggleTheme_eq. cbn [snd].
  rewrite currentTheme_pressed. apply currentTheme_applied.
Qed.

(** After one [toggleTheme] the current mode is one of the two modes,
    whatever it was before. *)
Lemma toggleTheme_lands_in_modes w : is_mode (currentTheme (exec toggleTheme w)).
Proof.
  rewrite currentTheme_toggleTheme. unfold flipped, is_mode.
  case_decide; auto.
Qed.

(** A foreign string found in storage at startup becomes the current mode
    as it is; two toggles then end on "light", not on that string. *)
Example toggleTheme_twice_foreign :
  currentTheme (exec constructor (page (Some "blue") false)) = "blue"
  ∧ currentTheme (exec (toggleTheme;; toggleTheme)
                    (exec constructor (page (Some "blue") false))) = "light".
Proof. split; vm_compute; reflexivity. Qed.

Lemma seq_exec (m k : M unit) w :
  (m w).1 = Normal tt → exec (m;; k) w = exec k (exec m w).
Proof.
  unfold exec, mbind, M_bind. destruct (m w) as [c w']. simpl. by intros ->.
Qed.

(** C3.  From either mode, "light" or "dark", two calls of [toggleTheme]
    bring [currentTheme] back to the mode it started from. *)
Theorem toggleTheme_involutive (w : World) :
  is_mode (currentTheme w) →
  currentTheme (exec (toggleTheme;; toggleTheme) w) = currentTheme w.
Proof.
  intros Hmode. rewrite seq_exec by by rewrite toggleTheme_eq.
  rewrite !currentTheme_toggleTheme.
  by destruct Hmode as [-> | ->].
Qed.

Lemma toggleTheme_involutive_witness :
  is_mode (currentTheme (exec constructor (page None true)))
  ∧ currentTheme (exec (toggleTheme;; toggleTheme) (exec constructor (page None true)))
    = currentTheme (exec constructor (page None true)).
Proof.
  split.
  - right. reflexivity.
  - apply (toggleTheme_involutive (exec constructor (page None true))).
    right. reflexivity.
Defined.

(** C4.  For every mode and every state, a second [applyTheme] with the
    same mode leaves the [data-theme] attribute and the content of the
    [theme-color] meta as the first call left them (and adds no second
    meta), while each of the two calls dispatches exactly one
    [themeChanged] event carrying the mode: one event after the first
    call, two after the second, nothing else. *)
Theorem applyTheme_idempotent (theme : string) (w : World) :
  let once := exec (applyTheme theme) w in
  let twice := exec (applyTheme theme;; applyTheme theme) w in
  returns (applyTheme theme;; applyTheme theme) w
  ∧ data_theme once = Some theme ∧ data_theme twice = data_theme once
  ∧ chrome_color once = Some (color_for theme)
  ∧ chrome_color twice = chrome_color once
  ∧ head twice = head once
  ∧ events once = events w ++ [mkEvent "themeChanged" theme]
  ∧ events twice
    = events w ++ [mkEvent "themeChanged" theme; mkEvent "themeChanged" theme].
Proof.
  intros once twice. subst once twice.
  rewrite seq_exec by by rewrite applyTheme_eq.
  split.
  { exists tt. unfold mbind, M_bind. by rewrite !applyTheme_eq. }
  unfold exec. rewrite !applyTheme_eq. cbn [snd].
  rewrite !data_theme_applied, !chrome_color_applied, !head_applied,
    !events_applied, put_theme_color_idemp, <- app_assoc.
  done.
Qed.

(** C8.  From the mode "light", [toggleTheme] returns with [currentTheme]
    equal to "dark", with "dark" stored under "theme" whenever storage can
    be written, and with exactly one more dispatched event, a
    [themeChanged] whose detail is [{ theme: "dark" }]. *)
Theorem toggleTheme_from_light (w : World) :
  currentTheme w = "light" →
  returns toggleTheme w
  ∧ currentTheme (exec toggleTheme w) = "dark"
  ∧ (ls_write_fault (localStorage w) = None →
       ls_items (localStorage (exec toggleTheme w)) !! "theme" = Some "dark")
  ∧ events (exec toggleTheme w) = events w ++ [mkEvent "themeChanged" "dark"].
Proof.
  intros Hcur. split; [exists tt; by rewrite toggleTheme_eq|].
  split; [by rewrite currentTheme_toggleTheme, Hcur|].
  unfold exec. rewrite toggleTheme_eq, Hcur. cbn [snd].
  change (flipped "light") with "dark".
  pose proof (items_applied "dark" w) as Hitems.
  pose proof (events_applied "dark" w) as Hevents.
  revert Hitems Hevents. generalize (applied "dark" w). intros w' Hitems Hevents.
  rewrite storage_pressed, events_pressed.
  split; [|done].
  intros Hwrite. rewrite Hitems by done. apply lookup_insert_eq.
Qed.

Lemma toggleTheme_from_light_witness :
  currentTheme (exec constructor (page None false)) = "light"
  ∧ currentTheme (exec toggleTheme (exec constructor (page None false))) = "dark"
  ∧ ls_items (localStorage (exec toggleTheme (exec constructor (page None false))))
      !! "theme" = Some "dark".
Proof.
  pose proof
    (toggleTheme_from_light (exec constructor (page None false)) eq_refl)
    as (_ & Hmode & Hstored & _).
  split_and!; [reflexivity | exact Hmode | apply Hstored; reflexivity].
Defined.

(** A click on the toggle, with the one listener [init] registered, is a
    call of [toggleTheme]. *)
Lemma step_Click_single w :
  click_listeners w = 1 → step Click w = toggleTheme w.
Proof.
  intros Hone. simpl. unfold mbind at 1, M_bind, gets. rewrite Hone. simpl.
  unfold on_click, mbind, M_bind, mret, M_ret. by rewrite toggleTheme_eq.
Qed.

(** ** The storage accessors *)

(** C7.  [getStoredTheme] always completes normally.  When storage can be
    read it returns the item under "theme" ([null] when there is none) and
    changes nothing; when reading raises it returns [null] and its only
    effect is one warning on the console, carrying the error. *)
Theorem getStoredTheme_never_throws (w : World) :
  ∃ r w', getStoredTheme w = (Normal r, w')
  ∧ match ls_read_fault (localStorage w) with
    | None => r = ls_items (localStorage w) !! "theme" ∧ w' = w
    | Some error =>
        r = None
        ∧ w' = set_console (λ l, l ++ [("localStorage not available:", error)]) w
    end.
Proof.
  eexists _, _. split; [apply getStoredTheme_eq|].
  unfold stored_theme. by destruct (ls_read_fault _).
Qed.

(** ** [setTheme] *)

(** C10.  For every argument other than the strings "dark" and "light"
    (any other string, and any value that is not a string), [setTheme]
    returns and leaves the whole state as it was: the current mode,
    [data-theme], the [theme-color] meta, storage, the toggle and its
    label, and the list of dispatched events. *)
Theorem setTheme_rejects (theme : JsValue) (w : World) :
  theme ≠ JsStr "dark" → theme ≠ JsStr "light" →
  setTheme theme w = (Normal tt, w).
Proof.
  intros Hdark Hlight. unfold setTheme, strict_eq.
  by rewrite !bool_decide_eq_false_2.
Qed.

Lemma setTheme_rejects_witness :
  setTheme (JsStr "Dark") (exec constructor (page None false))
  = (Normal tt, exec constructor (page None false))
  ∧ setTheme JsUndefined (exec constructor (page None false))
    = (Normal tt, exec constructor (page None false)).
Proof.
  split.
  - apply (setTheme_rejects (JsStr "Dark")); discriminate.
  - apply (setTheme_rejects JsUndefined); discriminate.
Defined.

(** ** The chrome colour *)

Lemma color_for_light : color_for "light" = "#ffffff".
Proof. reflexivity. Qed.

Lemma color_for_dark : color_for "dark" = "#0f172a".
Proof. reflexivity. Qed.

(** The fallback [|| colors.light] is reached by every key that is neither
    an own property of [colors] nor a property of [Object.prototype]. *)
Lemma color_for_fallback theme :
  ¬ is_mode theme → inherited theme = None → color_for theme = "#ffffff".
Proof.
  intros Hmode Hinh. unfold color_for, js_get at 1, colors.
  rewrite lookup_insert_ne by (intros <-; apply Hmode; by left).
  rewrite lookup_singleton_ne by (intros <-; apply Hmode; by right).
  by rewrite Hinh.
Qed.

Lemma chrome_color_updateMetaThemeColor theme w :
  chrome_color (exec (updateMetaThemeColor theme) w) = Some (color_for theme).
Proof.
  unfold exec. rewrite updateMetaThemeColor_eq. unfold chrome_color. simpl.
  by destruct (list_find_put_theme_color (color_for theme) (head w)) as [i ->].
Qed.

(** C6.  [updateMetaThemeColor] writes "#ffffff" for "light" and "#0f172a"
    for "dark"; but for the mode "constructor", which is neither, the read
    [colors[theme]] finds the inherited [Object.prototype.constructor], a
    truthy function, so [|| colors.light] is not taken and the content
    written is the text of that function, not "#ffffff". *)
Theorem updateMetaThemeColor_inherited_key (w : World) :
  chrome_color (exec (updateMetaThemeColor "light") w) = Some "#ffffff"
  ∧ chrome_color (exec (updateMetaThemeColor "dark") w) = Some "#0f172a"
  ∧ ¬ is_mode "constructor"
  ∧ chrome_color (exec (updateMetaThemeColor "constructor") w)
    = Some "function Object() { [native code] }"
  ∧ chrome_color (exec (updateMetaThemeColor "constructor") w) ≠ Some "#ffffff".
Proof.
  rewrite !chrome_color_updateMetaThemeColor.
  split_and!; try reflexivity; [|discriminate].
  by intros [|].
Qed.

(** The same happens at startup when such a key is what storage holds. *)
Lemma startup_inherited_key :
  chrome_color (exec constructor (page (Some "constructor") false))
  = Some "function Object() { [native code] }".
Proof. vm_compute. reflexivity. Qed.

(** ** The system preference listener *)

Lemma on_system_change_eq dark w :
  on_system_change dark w =
    if truthy (of_nullable (stored_theme w))
    then (Normal tt, (getStoredTheme w).2)
    else (Normal tt, applied (if dark then "dark" else "light") (getStoredTheme w).2).
Proof.
  unfold on_system_change, mbind, M_bind, mret, M_ret.
  rewrite getStoredTheme_eq. cbn [snd].
  destruct (truthy _); cbn [negb]; [done|]. by rewrite applyTheme_eq.
Qed.

Lemma on_system_change_skips dark w v :
  ls_read_fault (localStorage w) = None →
  ls_items (localStorage w) !! "theme" = Some v → v ≠ "" →
  on_system_change dark w = (Normal tt, w).
Proof.
  intros Hread Hitem Hne. rewrite on_system_change_eq, getStoredTheme_eq.
  unfold stored_theme. rewrite Hread, Hitem. simpl.
  by rewrite bool_decide_eq_false_2.
Qed.

(** C5.  The callback for a change of the system preference first asks
    [getStoredTheme].  When storage holds a value under "theme" (a
    non-empty string, as every value the module writes is), the callback
    changes nothing at all, so the current mode stays.  When storage holds
    nothing under "theme", the callback returns with [currentTheme] equal
    to the newly reported mode: "dark" if the query now matches, "light"
    if not. *)
Theorem system_change_guard (w : World) (dark : bool) :
  (∀ v, ls_read_fault (localStorage w) = None →
        ls_items (localStorage w) !! "theme" = Some v → v ≠ "" →
        on_system_change dark w = (Normal tt, w))
  ∧ (ls_items (localStorage w) !! "theme" = None →
       returns (on_system_change dark) w
       ∧ currentTheme (exec (on_system_change dark) w)
         = if dark then "dark" else "light").
Proof.
  split.
  - intros v. apply on_system_change_skips.
  - intros Hitem. unfold returns, exec. rewrite on_system_change_eq.
    assert (truthy (of_nullable (stored_theme w)) = false) as ->.
    { unfold stored_theme. rewrite Hitem. by destruct (ls_read_fault _). }
    split; [by exists tt|]. cbn [snd]. apply currentTheme_applied.
Qed.

Lemma system_change_guard_witness :
  on_system_change false (exec constructor (page (Some "dark") true))
  = (Normal tt, exec constructor (page (Some "dark") true))
  ∧ currentTheme (exec (on_system_change true)
                    (exec constructor (blank full_storage (Some false) None)))
    = "dark".
Proof.
  split.
  - apply (system_change_guard (exec constructor (page (Some "dark") true)) false)
      with (v := "dark"); [reflexivity | reflexivity | discriminate].
  - apply (system_change_guard
             (exec constructor (blank full_storage (Some false) None)) true).
    reflexivity.
Defined.

(** An empty string under "theme" is falsy, so the callback treats it as
    no stored value. *)
Example system_change_empty_string :
  currentTheme (exec (on_system_change true)
                  (set_currentTheme "light" (page (Some "") false))) = "dark".
Proof. vm_compute. reflexivity. Qed.

(** ** Persistence

    With a storage that works, every [applyTheme] writes its argument, so
    from the end of the constructor on the state satisfies [persisted]:
    storage holds the current mode, which is a non-empty string. *)

Section Persistence.
Implicit Types (w : World) (m k : M unit).

Lemma returned m w w' : m w = (Normal tt, w') → m w = (Normal tt, exec m w).
Proof. intros H. unfold exec. by rewrite H. Qed.

Lemma total_seq m k : total m → total k → total (m;; k).
Proof.
  intros Hm Hk w. unfold exec, mbind, M_bind.
  rewrite (Hm w), (Hk (exec m w)). done.
Qed.

Lemma preserves_seq P m k :
  total m → preserves P m → preserves P k → preserves P (m;; k).
Proof.
  intros Hm Pm Pk w Hw. rewrite seq_exec by by rewrite (Hm w). auto.
Qed.

Lemma total_gets {A} (f : World → A) (k : A → M unit) :
  (∀ a, total (k a)) → total (a ← gets f; k a).
Proof. intros Hk w. unfold exec, mbind, M_bind, gets. apply Hk. Qed.

Lemma preserves_gets {A} P (f : World → A) (k : A → M unit) :
  (∀ a, preserves P (k a)) → preserves P (a ← gets f; k a).
Proof. intros Hk w Hw. unfold exec, mbind, M_bind, gets. by apply Hk. Qed.

Lemma total_ret : total (mret tt).
Proof. by intros w. Qed.

Lemma preserves_ret P : preserves P (mret tt).
Proof. by intros w. Qed.

Lemma total_modify f : total (modify f).
Proof. by intros w. Qed.

Lemma total_applyTheme theme : total (applyTheme theme).
Proof. intros w. eapply returned, applyTheme_eq. Qed.

Lemma total_toggleTheme : total toggleTheme.
Proof. intros w. eapply returned, toggleTheme_eq. Qed.

Lemma total_setTheme theme : total (setTheme theme).
Proof.
  unfold setTheme. destruct (_ || _); [apply total_applyTheme | apply total_ret].
Qed.

Lemma total_on_system_change dark : total (on_system_change dark).
Proof.
  intros w. destruct (truthy (of_nullable (stored_theme w))) eqn:E;
    eapply returned; rewrite on_system_change_eq, E; reflexivity.
Qed.

Lemma total_on_keydown key : total (on_keydown key).
Proof.
  unfold on_keydown. destruct (_ || _); [apply total_toggleTheme | apply total_ret].
Qed.

Lemma total_each_listener n m : total m → total (each_listener n m).
Proof.
  intros Hm. induction n as [|n IH]; [apply total_ret|].
  simpl. by apply total_seq.
Qed.

Lemma preserves_each_listener P n m :
  total m → preserves P m → preserves P (each_listener n m).
Proof.
  intros Hm Pm. induction n as [|n IH]; [apply preserves_ret|].
  simpl. by apply preserves_seq.
Qed.

Lemma total_step a : total (step a).
Proof.
  destruct a; simpl.
  - apply total_gets. intros n. apply total_each_listener, total_toggleTheme.
  - apply total_gets. intros n. apply total_each_listener, total_on_keydown.
  - apply total_gets. intros [b|]; [|apply total_ret].
    apply total_seq; [apply total_modify|].
    apply total_gets. intros n.
    apply total_each_listener, total_on_system_change.
  - apply total_gets. intros [|d rest]; [apply total_ret|].
    apply total_seq; apply total_modify.
  - apply total_setTheme.
  - apply total_toggleTheme.
Qed.

Lemma total_run l : total (run l).
Proof.
  induction l as [|a l IH]; [apply total_ret|].
  simpl. apply total_seq; [apply total_step | done].
Qed.

Lemma total_constructor : total constructor.
Proof. intros w. eapply returned, constructor_eq. Qed.

(** [persisted] only looks at storage and at [currentTheme]. *)
Lemma persisted_frame w w' :
  localStorage w' = localStorage w → currentTheme w' = currentTheme w →
  persisted w → persisted w'.
Proof. unfold persisted, storage_works. by intros -> ->. Qed.

Lemma persisted_applied theme w :
  storage_works w → theme ≠ "" → persisted (applied theme w).
Proof.
  intros [Hread Hwrite] Hne. unfold persisted, storage_works.
  destruct (faults_applied theme w) as [-> ->].
  rewrite items_applied, currentTheme_applied by done.
  by rewrite lookup_insert_eq.
Qed.

Lemma flipped_nonempty theme : flipped theme ≠ "".
Proof. unfold flipped. by case_decide. Qed.

Lemma preserves_applyTheme theme :
  theme ≠ "" → preserves persisted (applyTheme theme).
Proof.
  intros Hne w [Hw _]. unfold exec. rewrite applyTheme_eq.
  by apply persisted_applied.
Qed.

Lemma preserves_toggleTheme : preserves persisted toggleTheme.
Proof.
  intros w [Hw _]. unfold exec. rewrite toggleTheme_eq. cbn [snd].
  eapply persisted_frame;
    [apply storage_pressed | apply currentTheme_pressed |].
  apply persisted_applied; [done | apply flipped_nonempty].
Qed.

Lemma preserves_setTheme theme : preserves persisted (setTheme theme).
Proof.
  unfold setTheme, strict_eq.
  destruct (decide (theme = JsStr "dark")) as [-> | Hd].
  { by apply preserves_applyTheme. }
  destruct (decide (theme = JsStr "light")) as [-> | Hl].
  { by apply preserves_applyTheme. }
  rewrite !bool_decide_eq_false_2 by done. apply preserves_ret.
Qed.

(** Under [persisted] the guard of the listener fails: the callback is
    the identity. *)
Lemma on_system_change_persisted dark w :
  persisted w → on_system_change dark w = (Normal tt, w).
Proof.
  intros ([Hread Hwrite] & Hitem & Hne).
  by apply on_system_change_skips with (v := currentTheme w).
Qed.

Lemma preserves_on_system_change dark :
  preserves persisted (on_system_change dark).
Proof.
  intros w Hw. unfold exec. by rewrite on_system_change_persisted.
Qed.

Lemma preserves_on_keydown key : preserves persisted (on_keydown key).
Proof.
  unfold on_keydown.
  destruct (_ || _); [apply preserves_toggleTheme | apply preserves_ret].
Qed.

Lemma preserves_step a : preserves persisted (step a).
Proof.
  destruct a; simpl.
  - apply preserves_gets. intros n.
    apply preserves_each_listener;
      [apply total_toggleTheme | apply preserves_toggleTheme].
  - apply preserves_gets. intros n.
    apply preserves_each_listener;
      [apply total_on_keydown | apply preserves_on_keydown].
  - apply preserves_gets. intros [b|]; [|apply preserves_ret].
    apply preserves_seq; [apply total_modify | |].
    + intros w Hw. by eapply persisted_frame.
    + apply preserves_gets. intros n.
      apply preserves_each_listener;
        [apply total_on_system_change | apply preserves_on_system_change].
  - apply preserves_gets. intros [|d rest]; [apply preserves_ret|].
    apply preserves_seq; [apply total_modify | |];
      intros w Hw; by eapply persisted_frame.
  - apply preserves_setTheme.
  - apply preserves_toggleTheme.
Qed.

Lemma preserves_run l : preserves persisted (run l).
Proof.
  induction l as [|a l IH]; [apply preserves_ret|].
  simpl. apply preserves_seq; [apply total_step | apply preserves_step | done].
Qed.
End Persistence.

Lemma storage_resolved w : localStorage (resolved w) = localStorage w.
Proof.
  unfold resolved. rewrite getStoredTheme_eq. simpl.
  by destruct (ls_read_fault _).
Qed.

Lemma currentTheme_resolved_nonempty w : currentTheme (resolved w) ≠ "".
Proof.
  unfold resolved, system_theme. simpl.
  destruct (stored_theme _) as [s|]; simpl.
  - case_bool_decide; simpl; [by destruct (default false _) | done].
  - by destruct (default false _).
Qed.

Lemma persisted_constructor w :
  storage_works w → persisted (exec constructor w).
Proof.
  intros Hw. unfold exec. rewrite constructor_eq. cbn [snd].
  eapply persisted_frame;
    [apply storage_labelled_wired | apply currentTheme_labelled_wired |].
  apply persisted_applied; [|apply currentTheme_resolved_nonempty].
  unfold storage_works. by rewrite storage_resolved.
Qed.

(** C9.  With a storage that can be read and written, [applyTheme] leaves
    its argument under "theme", whatever the argument.  The constructor
    applies the mode it resolved, system-inferred or not, so it leaves a
    stored value; and after the constructor and any further sequence of
    clicks, key presses, system preference changes, timer callbacks and
    calls of [setTheme] and [toggleTheme], storage still holds the current
    mode, [getStoredTheme] returns it, and the callback for a system
    preference change does nothing, for either reported mode. *)
Theorem applyTheme_always_persists (w0 : World) (actions : list Action) :
  storage_works w0 →
  (∀ theme,
     ls_items (localStorage (exec (applyTheme theme) w0)) !! "theme" = Some theme)
  ∧ ls_items (localStorage (exec constructor w0)) !! "theme"
    = Some (currentTheme (exec constructor w0))
  ∧ let w := exec (constructor;; run actions) w0 in
    returns (constructor;; run actions) w0
    ∧ ls_items (localStorage w) !! "theme" = Some (currentTheme w)
    ∧ getStoredTheme w = (Normal (Some (currentTheme w)), w)
    ∧ truthy (of_nullable (Some (currentTheme w))) = true
    ∧ ∀ dark, on_system_change dark w = (Normal tt, w).
Proof.
  intros Hw0. split_and!.
  - intros theme. unfold exec. rewrite applyTheme_eq. cbn [snd].
    rewrite items_applied by apply Hw0. apply lookup_insert_eq.
  - apply persisted_constructor, Hw0.
  - pose proof (total_seq _ _ total_constructor (total_run actions) w0) as Hret.
    assert (persisted (exec (constructor;; run actions) w0)) as Hp.
    { rewrite seq_exec by by rewrite (total_constructor w0).
      by apply preserves_run, persisted_constructor. }
    revert Hret Hp. generalize (exec (constructor;; run actions) w0).
    intros w Hret Hp. cbv zeta. split_and!.
    + exists tt. by rewrite Hret.
    + apply Hp.
    + destruct Hp as ([Hread _] & Hitem & _).
      rewrite getStoredTheme_eq. unfold stored_theme. by rewrite Hread, Hitem.
    + destruct Hp as (_ & _ & Hne). simpl. by rewrite bool_decide_eq_false_2.
    + intros dark. by apply on_system_change_persisted.
Qed.

Lemma applyTheme_always_persists_witness :
  storage_works (page None true)
  ∧ on_system_change false
      (exec (constructor;; run [SystemChange false; Click; CallSetTheme (JsStr "light")])
            (page None true))
    = (Normal tt,
       exec (constructor;; run [SystemChange false; Click; CallSetTheme (JsStr "light")])
            (page None true)).
Proof.
  split; [split; reflexivity|].
  pose proof
    (applyTheme_always_persists (page None true)
       [SystemChange false; Click; CallSetTheme (JsStr "light")]
       (conj eq_refl eq_refl)) as (_ & _ & H).
  cbv zeta in H. destruct H as (_ & _ & _ & _ & H). apply H.
Defined.

(** * Further properties of [ThemeManager] *)

(** ** Invariants of the event loop

    Every action of the event loop is built from [applyTheme] at one of
    the two modes, the press animation, the timer callback, and writes to
    the media query and the console; a property kept by these is kept by
    every run. *)

Lemma flipped_is_mode theme : is_mode (flipped theme).
Proof. unfold flipped, is_mode. case_decide; auto. Qed.

Lemma mode_of_is_mode dark : is_mode (mode_of dark).
Proof. unfold is_mode. destruct dark; auto. Qed.

Lemma exec_applyTheme theme w : exec (applyTheme theme) w = applied theme w.
Proof. unfold exec. by rewrite applyTheme_eq. Qed.

Lemma exec_toggleTheme w :
  exec toggleTheme w = pressed (exec (applyTheme (flipped (currentTheme w))) w).
Proof. rewrite exec_applyTheme. unfold exec. by rewrite toggleTheme_eq. Qed.

Lemma exec_on_system_change dark w :
  exec (on_system_change dark) w =
    let w1 := match ls_read_fault (localStorage w) with
              | None => w
              | Some e =>
                  set_console (λ l, l ++ [("localStorage not available:", e)]) w
              end in
    if truthy (of_nullable (stored_theme w)) then w1
    else exec (applyTheme (mode_of dark)) w1.
Proof.
  unfold exec at 1. rewrite on_system_change_eq, getStoredTheme_eq. cbn [snd].
  cbv zeta. destruct (truthy _); cbn [snd]; [done|].
  by rewrite exec_applyTheme.
Qed.

Section Invariants.
Context (P : World → Prop).
Hypothesis P_apply : ∀ theme, is_mode theme → preserves P (applyTheme theme).
Hypothesis P_pressed : ∀ w, P w → P (pressed w).
Hypothesis P_timeout :
  ∀ d rest w, P w → timers w = d :: rest →
    P (set_toggle (λ t, mkToggle (aria_label t) "scale(1)")
         (set_timers (λ _, rest) w)).
Hypothesis P_media : ∀ dark w, P w → P (set_matchMedia (Some dark) w).
Hypothesis P_console : ∀ f w, P w → P (set_console f w).

Lemma invariant_toggleTheme : preserves P toggleTheme.
Proof.
  intros w Hw. rewrite exec_toggleTheme.
  apply P_pressed, P_apply; [apply flipped_is_mode | done].
Qed.

Lemma invariant_setTheme theme : preserves P (setTheme theme).
Proof.
  unfold setTheme, strict_eq.
  destruct (decide (theme = JsStr "dark")) as [-> | Hd].
  { apply P_apply. by right. }
  destruct (decide (theme = JsStr "light")) as [-> | Hl].
  { apply P_apply. by left. }
  rewrite !bool_decide_eq_false_2 by done. apply preserves_ret.
Qed.

Lemma invariant_on_system_change dark : preserves P (on_system_change dark).
Proof.
  intros w Hw. rewrite exec_on_system_change. cbv zeta.
  assert (P (match ls_read_fault (localStorage w) with
             | None => w
             | Some e =>
                 set_console (λ l, l ++ [("localStorage not available:", e)]) w
             end)) as Hw1 by (destruct (ls_read_fault _); auto).
  destruct (truthy _); [done|]. apply P_apply; [apply mode_of_is_mode | done].
Qed.

Lemma invariant_on_keydown key : preserves P (on_keydown key).
Proof.
  unfold on_keydown.
  destruct (_ || _); [apply invariant_toggleTheme | apply preserves_ret].
Qed.

Lemma invariant_step a : preserves P (step a).
Proof.
  destruct a; simpl.
  - apply preserves_gets. intros n.
    apply preserves_each_listener;
      [apply total_toggleTheme | apply invariant_toggleTheme].
  - apply preserves_gets. intros n.
    apply preserves_each_listener;
      [apply total_on_keydown | apply invariant_on_keydown].
  - apply preserves_gets. intros [b|]; [|apply preserves_ret].
    apply preserves_seq; [apply total_modify | |].
    + intros w Hw. by apply P_media.
    + apply preserves_gets. intros n.
      apply preserves_each_listener;
        [apply total_on_system_change | apply invariant_on_system_change].
  - intros w Hw. unfold exec, mbind, M_bind, gets.
    destruct (timers w) as [|d rest] eqn:E; [done|].
    by apply (P_timeout d rest).
  - apply invariant_setTheme.
  - apply invariant_toggleTheme.
Qed.

Lemma invariant_run l : preserves P (run l).
Proof.
  induction l as [|a l IH]; [apply preserves_ret|].
  simpl. apply preserves_seq; [apply total_step | apply invariant_step | done].
Qed.

(** A property the constructor establishes holds after every run. *)
Lemma invariant_session w0 l :
  P (exec constructor w0) → P (exec (constructor;; run l) w0).
Proof.
  intros H0. rewrite seq_exec by by rewrite (total_constructor w0).
  by apply invariant_run.
Qed.
End Invariants.

Lemma session_returns w0 l : returns (constructor;; run l) w0.
Proof.
  exists tt. by rewrite (total_seq _ _ total_constructor (total_run l) w0).
Qed.

Lemma exec_constructor w :
  exec constructor w
  = labelled (wired (applied (currentTheme (resolved w)) (resolved w))).
Proof. unfold exec. by rewrite constructor_eq. Qed.

(** ** The page agrees with the current mode *)

Lemma in_sync_applied theme w :
  (∀ t, toggle w = Some t → themeToggle w = true) →
  in_sync (applied theme w).
Proof.
  intros Hlink. unfold in_sync.
  rewrite data_theme_applied, chrome_color_applied, events_applied,
    currentTheme_applied, last_snoc.
  split_and!; try done.
  revert Hlink. unfold label_for.
  destruct w as [[items rfault wfault] mm tm cs dt hd tg ev cl kl ml tgl cur].
  unfold applied, labelled, stored. simpl.
  intros Hlink t. destruct tg as [t0|].
  - rewrite (Hlink t0 eq_refl). destruct wfault; simpl; by intros [= <-].
  - destruct wfault, tgl; simpl; by intros [=].
Qed.

Lemma in_sync_transform s w :
  in_sync w → in_sync (set_toggle (λ t, mkToggle (aria_label t) s) w).
Proof.
  intros (Hd & Hc & Ht & He). unfold in_sync. split_and!; try done.
  intros t. simpl. destruct (toggle w) as [t0|]; [|done].
  simpl. intros [= <-]. simpl. by apply Ht.
Qed.

Lemma in_sync_labelled_wired w : in_sync w → in_sync (labelled (wired w)).
Proof.
  intros (Hd & Hc & Ht & He). unfold in_sync.
  assert (themeToggle (wired w) = themeToggle w
          ∧ currentTheme (wired w) = currentTheme w
          ∧ toggle (wired w) = toggle w) as (Etg & Ecur & Etoggle).
  { unfold wired. destruct w as [? [|] ? ? ? ? ? ? ? ? ? [] ?]; done. }
  assert (data_theme (labelled (wired w)) = data_theme w
          ∧ chrome_color (labelled (wired w)) = chrome_color w
          ∧ events (labelled (wired w)) = events w
          ∧ themeToggle (labelled (wired w)) = themeToggle w)
    as (-> & -> & -> & ->).
  { unfold labelled, wired, chrome_color.
    destruct w as [? [|] ? ? ? ? ? ? ? ? ? [] ?]; done. }
  rewrite currentTheme_labelled_wired. split_and!; try done.
  intros t. unfold labelled. rewrite Etg.
  destruct (themeToggle w) eqn:E.
  - simpl. rewrite Etoggle, Ecur. destruct (toggle w) as [t0|]; [|done].
    simpl. by intros [= <-].
  - rewrite Etoggle. intros Hsome. apply Ht in Hsome as [? _]. congruence.
Qed.

(** X1.  After the constructor and any sequence of clicks, key presses,
    system preference changes, timer callbacks and calls of [setTheme] and
    [toggleTheme], and whether or not storage works, the page shows the
    current mode: [data-theme] equals [currentTheme], the [theme-color]
    meta holds the colour computed for it, the toggle (when the page has
    one) carries the label for it, and the last event dispatched is the
    [themeChanged] that announced it. *)
Theorem page_in_sync (w0 : World) (actions : list Action) :
  returns (constructor;; run actions) w0
  ∧ in_sync (exec (constructor;; run actions) w0).
Proof.
  split; [apply session_returns|].
  apply invariant_session.
  - intros theme _ w Hw. rewrite exec_applyTheme. apply in_sync_applied.
    intros t Ht. by apply Hw in Ht as [? _].
  - intros w Hw. unfold pressed. destruct (themeToggle w); [|done].
    by apply (in_sync_transform "scale(0.95)") in Hw.
  - intros d rest w Hw _. by apply (in_sync_transform "scale(1)") in Hw.
  - by intros dark w.
  - by intros f w.
  - rewrite exec_constructor. apply in_sync_labelled_wired, in_sync_applied.
    unfold resolved. rewrite getStoredTheme_eq. simpl.
    destruct (ls_read_fault _); simpl; intros t ->; done.
Qed.

(** ** The current mode stays one of the two modes *)

Lemma currentTheme_pressed_timeout s f w :
  currentTheme (set_toggle (λ t, mkToggle (aria_label t) s) (set_timers f w))
  = currentTheme w.
Proof. done. Qed.

Lemma stored_theme_themeToggle b w :
  stored_theme (set_themeToggle b w) = stored_theme w.
Proof. done. Qed.

(** X2.  When storage gives the constructor nothing, an empty string, or
    one of "light" and "dark", [currentTheme] is "light" or "dark" after
    the constructor and stays so through every run of the event loop. *)
Theorem mode_stays_valid (w0 : World) (actions : list Action) :
  (∀ v, (getStoredTheme w0).1 = Normal (Some v) → v = "" ∨ is_mode v) →
  is_mode (currentTheme (exec (constructor;; run actions) w0)).
Proof.
  intros Hstored. rewrite getStoredTheme_eq in Hstored. cbn [fst] in Hstored.
  apply (invariant_session (λ w, is_mode (currentTheme w))).
  - intros theme Hmode w _. by rewrite exec_applyTheme, currentTheme_applied.
  - intros w. by rewrite currentTheme_pressed.
  - by intros d rest w.
  - by intros dark w.
  - by intros f w.
  - rewrite currentTheme_constructor. unfold resolved.
    rewrite stored_theme_themeToggle. cbn [currentTheme set_currentTheme].
    destruct (stored_theme w0) as [v|] eqn:Ev; simpl.
    + destruct (Hstored v eq_refl) as [-> | Hmode]; simpl.
      * unfold system_theme, is_mode. destruct (default false _); auto.
      * case_bool_decide; simpl; [|done].
        unfold system_theme, is_mode. destruct (default false _); auto.
    + unfold system_theme, is_mode. destruct (default false _); auto.
Qed.

Lemma mode_stays_valid_witness :
  is_mode (currentTheme
    (exec (constructor;; run [Click; SystemChange true; KeyDown " "; Timeout])
          (page (Some "") true))).
Proof.
  apply (mode_stays_valid (page (Some "") true)).
  intros v. vm_compute. intros [= <-]. by left.
Defined.

(** ** What the module does to storage *)

Lemma storage_applied theme w :
  localStorage (applied theme w)
  = match ls_write_fault (localStorage w) with
    | None => mkStorage (<["theme" := theme]> (ls_items (localStorage w)))
                        (ls_read_fault (localStorage w)) None
    | Some _ => localStorage w
    end.
Proof. by world_cases w. Qed.

(** X3.  [storeTheme] never raises.  When storage accepts the write, the
    item "theme" becomes the argument, every other item stays, and nothing
    is logged; when the write raises, storage is left exactly as it was and
    the only effect is one console warning carrying the error. *)
Theorem storeTheme_best_effort (theme : string) (w : World) :
  ∃ w', storeTheme theme w = (Normal tt, w')
  ∧ match ls_write_fault (localStorage w) with
    | None =>
        w' = set_items (<["theme" := theme]>) w
        ∧ ls_items (localStorage w') !! "theme" = Some theme
        ∧ ∀ k, k ≠ "theme" →
               ls_items (localStorage w') !! k = ls_items (localStorage w) !! k
    | Some error =>
        w' = set_console
               (λ l, l ++ [("Could not store theme preference:", error)]) w
        ∧ localStorage w' = localStorage w
    end.
Proof.
  eexists. split; [apply storeTheme_eq|]. unfold stored.
  destruct (ls_write_fault _); [done|]. split_and!; [done|..]; simpl.
  - apply lookup_insert_eq.
  - intros k Hk. by apply lookup_insert_ne.
Qed.

Lemma storage_from_applied s0 theme w :
  storage_from s0 w → storage_from s0 (applied theme w).
Proof.
  intros (Hr & Hw & Hk & Hall). unfold storage_from.
  rewrite storage_applied.
  destruct (ls_write_fault (localStorage w)) as [e|] eqn:E.
  { split_and!; [done | congruence | done | done]. }
  simpl. split_and!; try done.
  - intros k Hne. rewrite lookup_insert_ne by done. by apply Hk.
  - rewrite <- Hw. by intros [? [=]].
Qed.

(** X4.  Over the constructor and any run of the event loop the module
    touches no item of storage but "theme", never changes whether storage
    raises, and, when writes raise, leaves every item as it found it. *)
Theorem storage_only_theme (w0 : World) (actions : list Action) :
  let w := exec (constructor;; run actions) w0 in
  (∀ k, k ≠ "theme" →
        ls_items (localStorage w) !! k = ls_items (localStorage w0) !! k)
  ∧ ls_read_fault (localStorage w) = ls_read_fault (localStorage w0)
  ∧ ls_write_fault (localStorage w) = ls_write_fault (localStorage w0)
  ∧ (is_Some (ls_write_fault (localStorage w0)) →
       ls_items (localStorage w) = ls_items (localStorage w0)).
Proof.
  cbv zeta.
  assert (storage_from (localStorage w0) (exec (constructor;; run actions) w0))
    as (Hr & Hw & Hk & Hall); [|done].
  apply invariant_session.
  - intros theme _ w Hw. rewrite exec_applyTheme. by apply storage_from_applied.
  - intros w. unfold storage_from. by rewrite storage_pressed.
  - by intros d rest w.
  - by intros dark w.
  - by intros f w.
  - rewrite exec_constructor. unfold storage_from.
    rewrite storage_labelled_wired.
    apply storage_from_applied. unfold storage_from.
    by rewrite storage_resolved.
Qed.

(** ** Without usable storage the page follows the system *)








(** ** Keyboard support *)

Lemma each_listener_skip n w : each_listener n (mret tt) w = (Normal tt, w).
Proof. induction n as [|n IH]; [done|]. simpl. unfold mbind, M_bind. by simpl. Qed.

(** X5.  On the toggle only the keys "Enter" and " " act: every other key
    leaves the whole state as it was, and each of the two does exactly
    what a click does. *)
Theorem keydown_filter (key : string) (w : World) :
  (key ≠ "Enter" → key ≠ " " → step (KeyDown key) w = (Normal tt, w))
  ∧ (keydown_listeners w = click_listeners w →
       step (KeyDown "Enter") w = step Click w
       ∧ step (KeyDown " ") w = step Click w).
Proof.
  split.
  - intros He Hs. simpl. unfold mbind, M_bind, gets, on_keydown.
    rewrite !bool_decide_eq_false_2 by done. apply each_listener_skip.
  - intros Hn. simpl. unfold mbind, M_bind, gets. by rewrite Hn.
Qed.

Lemma keydown_filter_witness :
  step (KeyDown "Tab") (exec constructor (page None true))
  = (Normal tt, exec constructor (page None true))
  ∧ step (KeyDown "Enter") (exec constructor (page None true))
    = step Click (exec constructor (page None true)).
Proof.
  pose proof (keydown_filter "Tab" (exec constructor (page None true)))
    as [Hother _].
  pose proof (keydown_filter "Enter" (exec constructor (page None true)))
    as [_ Hact].
  split.
  - apply Hother; discriminate.
  - apply Hact. reflexivity.
Defined.

(** ** A page without the toggle *)

Lemma toggleless_applied theme w : toggleless w → toggleless (applied theme w).
Proof.
  unfold toggleless. intros (? & ? & ? & ? & ?).
  destruct w as [[items rfault wfault] mm tm cs dt hd tg ev cl kl ml tgl cur].
  unfold applied, labelled, stored. simpl in *. subst.
  by destruct wfault.
Qed.

(** X6.  On a page without the element [theme-toggle] the constructor
    registers no click or key listener, and through every run the page
    has no toggle, no timer is scheduled, and clicks and key presses
    change nothing; [toggleTheme], called directly, still flips the
    mode. *)
Theorem missing_toggle_degrades (w0 : World) (actions : list Action) :
  toggle w0 = None → click_listeners w0 = 0 → keydown_listeners w0 = 0 →
  timers w0 = [] →
  let w := exec (constructor;; run actions) w0 in
  toggle w = None ∧ timers w = []
  ∧ click_listeners w = 0 ∧ keydown_listeners w = 0
  ∧ step Click w = (Normal tt, w)
  ∧ (∀ key, step (KeyDown key) w = (Normal tt, w))
  ∧ currentTheme (exec toggleTheme w) = flipped (currentTheme w)
  ∧ timers (exec toggleTheme w) = [].
Proof.
  intros Htg Hcl Hkl Htm. cbv zeta.
  assert (toggleless (exec (constructor;; run actions) w0)) as Hless.
  { apply invariant_session.
    - intros theme _ w Hw. rewrite exec_applyTheme. by apply toggleless_applied.
    - intros w Hw. unfold pressed. by pose proof Hw as (_ & -> & _).
    - intros d rest w (_ & _ & _ & _ & Hw) E. congruence.
    - by intros dark w.
    - by intros f w.
    - rewrite exec_constructor.
      assert (toggleless (resolved w0)) as Hr.
      { unfold resolved, toggleless. rewrite getStoredTheme_eq. cbn [snd].
        destruct w0 as [[items [e|] wf] mm tm cs dt hd tg ev cl kl ml tgl cur];
          simpl in *; subst; done. }
      apply (toggleless_applied (currentTheme (resolved w0))) in Hr.
      revert Hr. generalize (applied (currentTheme (resolved w0)) (resolved w0)).
      intros w (? & ? & ? & ? & ?). unfold toggleless, labelled, wired.
      destruct w as [? [|] ? ? ? ? ? ? ? ? ? ? ?]; simpl in *; subst; done. }
  revert Hless. generalize (exec (constructor;; run actions) w0).
  intros w Hless. pose proof Hless as (Ht & Htt & Hc & Hk & Htim).
  split_and!; try done.
  - simpl. unfold mbind, M_bind, gets. by rewrite Hc.
  - intros key. simpl. unfold mbind, M_bind, gets. by rewrite Hk.
  - apply currentTheme_toggleTheme.
  - rewrite exec_toggleTheme, exec_applyTheme.
    apply (toggleless_applied (flipped (currentTheme w))) in Hless.
    unfold pressed. by destruct Hless as (_ & -> & _ & _ & ->).
Qed.

Lemma missing_toggle_degrades_witness :
  step Click (exec (constructor;; run [Click; KeyDown "Enter"; SystemChange false])
                   (blank fresh_storage (Some true) None))
  = (Normal tt,
     exec (constructor;; run [Click; KeyDown "Enter"; SystemChange false])
          (blank fresh_storage (Some true) None)).
Proof.
  pose proof
    (missing_toggle_degrades (blank fresh_storage (Some true) None)
       [Click; KeyDown "Enter"; SystemChange false]
       eq_refl eq_refl eq_refl eq_refl) as H.
  cbv zeta in H. apply H.
Defined.

(** ** The press animation *)

Lemma exec_step_Timeout d rest w :
  timers w = d :: rest →
  exec (step Timeout) w
  = set_toggle (λ t, mkToggle (aria_label t) "scale(1)") (set_timers (λ _, rest) w).
Proof.
  intros E. unfold exec. simpl. unfold mbind, M_bind, gets, modify, on_timeout.
  by rewrite E.
Qed.

Lemma timeouts_settle n w t :
  toggle w = Some t → length (timers w) = n →
  let w' := exec (run (replicate n Timeout)) w in
  timers w' = []
  ∧ toggle w'
    = Some (mkToggle (aria_label t)
              (if decide (n = 0) then style_transform t else "scale(1)"))
  ∧ currentTheme w' = currentTheme w.
Proof.
  revert w t. induction n as [|n IH]; intros w t Ht Hlen; cbv zeta.
  - change (exec (run (replicate 0 Timeout)) w) with w.
    destruct (timers w) eqn:E; [|done]. destruct t. by rewrite Ht.
  - destruct (timers w) as [|d rest] eqn:E; [done|].
    change (run (replicate (S n) Timeout))
      with (step Timeout;; run (replicate n Timeout)).
    rewrite seq_exec by by rewrite (total_step Timeout w).
    rewrite (exec_step_Timeout d rest) by done.
    specialize (IH (set_toggle (λ t, mkToggle (aria_label t) "scale(1)")
                      (set_timers (λ _, rest) w))
                   (mkToggle (aria_label t) "scale(1)")).
    cbv zeta in IH. destruct IH as (H1 & H2 & H3).
    + simpl. by rewrite Ht.
    + simpl in *. lia.
    + rewrite H1, H2, H3. split_and!; try done.
      simpl. by destruct (decide (n = 0)).
Qed.

(** X7.  With a toggle on the page, [toggleTheme] puts the toggle's
    transform at "scale(0.95)" and schedules one more callback, 150 ms
    away; once every pending callback has fired the transform is
    "scale(1)", no callback is pending, and the label and the mode are
    those [toggleTheme] left. *)
Theorem press_animation_settles (w : World) (t : Toggle) :
  themeToggle w = true → toggle w = Some t →
  let w1 := exec toggleTheme w in
  let w2 := exec (run (replicate (length (timers w1)) Timeout)) w1 in
  timers w1 = timers w ++ [150]
  ∧ style_transform <$> toggle w1 = Some "scale(0.95)"
  ∧ timers w2 = []
  ∧ style_transform <$> toggle w2 = Some "scale(1)"
  ∧ aria_label <$> toggle w2 = aria_label <$> toggle w1
  ∧ currentTheme w2 = flipped (currentTheme w).
Proof.
  intros Htt Ht. cbv zeta.
  assert (timers (exec toggleTheme w) = timers w ++ [150]
          ∧ ∃ lbl, toggle (exec toggleTheme w) = Some (mkToggle lbl "scale(0.95)"))
    as [Htim [lbl Htog]].
  { rewrite exec_toggleTheme, exec_applyTheme.
    destruct w as [[items rfault wfault] mm tm cs dt hd tg ev cl kl ml tgl cur].
    unfold pressed, applied, labelled, stored. simpl in *. subst.
    destruct wfault; simpl; eauto. }
  pose proof (currentTheme_toggleTheme w) as Hcur.
  revert Htim Htog Hcur. generalize (exec toggleTheme w). intros w1 Htim Htog Hcur.
  assert (length (timers w1) = S (length (timers w))) as Hlen.
  { rewrite Htim, length_app. simpl. lia. }
  rewrite Hlen.
  pose proof (timeouts_settle (S (length (timers w))) w1 _ Htog Hlen) as H.
  cbv zeta in H. destruct H as (H1 & H2 & H3).
  rewrite Htog, H2, H3. by split_and!.
Qed.

Lemma press_animation_settles_witness :
  style_transform <$>
    toggle (exec (run (replicate 1 Timeout))
              (exec toggleTheme (exec constructor (page None true))))
  = Some "scale(1)".
Proof.
  pose proof
    (press_animation_settles (exec constructor (page None true))
       (mkToggle (Some "Ativar modo claro") "") eq_refl eq_refl) as H.
  cbv zeta in H. destruct H as (_ & _ & _ & H & _). exact H.
Defined.

(** ** [updateMetaThemeColor] and the metas of the page *)

Lemma filter_alter_set_content (P : Meta → Prop) `{!∀ m, Decision (P m)} c i l :
  (∀ m, P (set_content c m) ↔ P m) →
  length (filter P (alter (set_content c) i l)) = length (filter P l).
Proof.
  intros HP. revert i. induction l as [|m l IH]; intros [|i]; simpl; try done.
  - rewrite !filter_cons. destruct (decide (P m)) as [Hm|Hm].
    + rewrite decide_True by by apply HP. done.
    + rewrite decide_False by by rewrite HP. done.
  - rewrite !filter_cons. destruct (decide (P m)); simpl; [f_equal|]; apply IH.
Qed.

Lemma other_metas_alter c i l :
  l !! i = None ∨ (∃ m, l !! i = Some m ∧ is_theme_color m) →
  other_metas (alter (set_content c) i l) = other_metas l.
Proof.
  unfold other_metas. revert i.
  induction l as [|m l IH]; intros [|i] Hi; simpl in *; try done.
  - destruct Hi as [[=] | (m' & [= <-] & Hm)].
    rewrite !filter_cons. rewrite decide_False by (intros H; by apply H).
    rewrite decide_False by (intros H; by apply H). done.
  - rewrite !filter_cons. destruct (decide _); [f_equal|]; by apply IH.
Qed.

(** X9.  [updateMetaThemeColor] reuses the first [theme-color] meta of the
    page and creates one only when the page has none: afterwards the page
    has as many [theme-color] metas as before, or one if it had none;
    every other meta is as it was, in the same order; and the first
    [theme-color] meta holds the colour computed for the mode. *)
Theorem updateMetaThemeColor_reuses_meta (theme : string) (w : World) :
  let l := head w in
  let l' := head (exec (updateMetaThemeColor theme) w) in
  length (theme_color_metas l') = max 1 (length (theme_color_metas l))
  ∧ other_metas l' = other_metas l
  ∧ chrome_color (exec (updateMetaThemeColor theme) w) = Some (color_for theme).
Proof.
  cbv zeta. split_and!; [| |apply chrome_color_updateMetaThemeColor].
  - unfold exec. rewrite updateMetaThemeColor_eq. simpl.
    unfold put_theme_color, theme_color_metas.
    destruct (list_find is_theme_color (head w)) as [[i m]|] eqn:E.
    + rewrite filter_alter_set_content by done.
      apply list_find_Some in E as (Hi & Hm & _).
      assert (m ∈ filter is_theme_color (head w)) as Hin.
      { apply list_elem_of_filter. split; [done|].
        by apply list_elem_of_lookup_2 in Hi. }
      destruct (filter is_theme_color (head w)); [by apply not_elem_of_nil in Hin|].
      simpl. lia.
    + fold (put_theme_color (color_for theme) (head w)).
      pose proof E as Hnone. apply list_find_None in Hnone.
      change (alter (set_content (color_for theme)) (length (head w))
                (head w ++ [mkMeta "theme-color" ""]))
        with (match @None (nat * Meta) with
              | Some (ref, _) => alter (set_content (color_for theme)) ref (head w)
              | None => alter (set_content (color_for theme)) (length (head w))
                          (head w ++ [mkMeta "theme-color" ""])
              end).
      rewrite <- E. fold (put_theme_color (color_for theme) (head w)).
      rewrite put_theme_color_absent by done.
      rewrite filter_app, length_app.
      assert (filter is_theme_color (head w) = []) as ->.
      { clear E. induction Hnone as [|m l Hm _ IH]; [done|].
        rewrite filter_cons, decide_False by done. done. }
      done.
  - unfold exec. rewrite updateMetaThemeColor_eq. simpl.
    unfold put_theme_color.
    destruct (list_find is_theme_color (head w)) as [[i m]|] eqn:E.
    + apply other_metas_alter. right.
      apply list_find_Some in E as (Hi & Hm & _). eauto.
    + rewrite other_metas_alter.
      * unfold other_metas. rewrite filter_app. simpl.
        rewrite filter_cons, decide_False by (intros H; by apply H).
        by rewrite filter_nil, app_nil_r.
      * right. exists (mkMeta "theme-color" ""). split; [|done].
        by rewrite list_lookup_middle.
Qed.

(** ** [setTheme] and [getCurrentTheme] *)

(** X10.  [getCurrentTheme] right after [setTheme(v)] returns [v] when [v]
    is the string "dark" or "light", and otherwise what it returned
    before the call. *)
Theorem setTheme_getCurrentTheme (v : JsValue) (w : World) :
  ((setTheme v;; getCurrentTheme) w).1
  = Normal (match v with
            | JsStr s => if decide (is_mode s) then s else currentTheme w
            | _ => currentTheme w
            end).
Proof.
  unfold mbind, M_bind. rewrite (total_setTheme v w). unfold getCurrentTheme, gets.
  cbn [fst]. f_equal. unfold setTheme, strict_eq, is_mode.
  destruct v as [| | | |s| | |]; try done.
  destruct (decide (s = "dark")) as [-> | Hd].
  { rewrite (bool_decide_eq_true_2 _ eq_refl). cbn [orb ToString].
    by rewrite exec_applyTheme, currentTheme_applied. }
  destruct (decide (s = "light")) as [-> | Hl].
  { rewrite (bool_decide_eq_true_2 (JsStr "light" = JsStr "light") eq_refl).
    rewrite orb_true_r. cbn [ToString].
    by rewrite exec_applyTheme, currentTheme_applied. }
  rewrite !bool_decide_eq_false_2 by congruence.
  rewrite decide_False by (intros [|]; done). done.
Qed.

(** * Properties of the course list *)

Section Cursos.
Import Script.
Implicit Types (doc pre : list (gset string)) (cl : gset string).

Lemma toggle_token_secondary cl : secondary (toggle_token "hidden" cl) ↔ secondary cl.
Proof. unfold secondary, toggle_token. case_decide; set_solver. Qed.

Lemma toggle_token_hidden cl : hidden (toggle_token "hidden" cl) ↔ ¬ hidden cl.
Proof. unfold hidden, toggle_token. case_decide; set_solver. Qed.

Lemma toggle_token_twice token cl : toggle_token token (toggle_token token cl) = cl.
Proof.
  unfold toggle_token. destruct (decide (token ∈ cl)) as [Hin|Hout].
  - rewrite decide_False by set_solver.
    apply set_eq. intros x. destruct (decide (x = token)); set_solver.
  - rewrite decide_True by set_solver.
    apply set_eq. intros x. destruct (decide (x = token)); set_solver.
Qed.

Lemma flip_course_twice cl : flip_course (flip_course cl) = cl.
Proof.
  unfold flip_course. destruct (decide (secondary cl)) as [Hs|Hs].
  - rewrite decide_True by by apply toggle_token_secondary.
    apply toggle_token_twice.
  - by rewrite decide_False.
Qed.

(** The loop over the snapshot, on the part of the document after [pre]. *)
Lemma for_items_from pre doc isVisible :
  for_items (by_class_from "curso-secundario" (length pre) doc) isVisible (pre ++ doc)
  = (isVisible || bool_decide (Exists (λ cl, secondary cl ∧ hidden cl) doc),
     pre ++ (flip_course <$> doc)).
Proof.
  unfold flip_course, secondary, hidden.
  revert pre isVisible. induction doc as [|cl doc IH]; intros pre isVisible.
  - cbn [by_class_from for_items]. rewrite fmap_nil.
    rewrite bool_decide_eq_false_2 by by intros ?%Exists_nil.
    by rewrite orb_false_r.
  - cbn [by_class_from]. rewrite fmap_cons.
    destruct (decide ("curso-secundario" ∈ cl)) as [Hs|Hs].
    + cbn [for_items]. unfold contains. rewrite list_lookup_middle by done.
      replace (alter (toggle_token "hidden") (length pre) (pre ++ cl :: doc))
        with ((pre ++ [toggle_token "hidden" cl]) ++ doc).
      2:{ rewrite <- app_assoc. simpl.
          apply list_eq. intros j. destruct (decide (j = length pre)) as [->|].
          - by rewrite list_lookup_alter_eq, !list_lookup_middle.
          - rewrite list_lookup_alter_ne by done.
            destruct (decide (j < length pre)).
            + by rewrite !lookup_app_l.
            + rewrite !lookup_app_r by lia.
              destruct (j - length pre) eqn:E; [lia|done]. }
      specialize (IH (pre ++ [toggle_token "hidden" cl])).
      rewrite length_app in IH. cbn [length] in IH.
      rewrite Nat.add_1_r in IH. rewrite IH, <- app_assoc.
      cbn [app]. f_equal. destruct (decide ("hidden" ∈ cl)) as [Hh|Hh].
      * rewrite bool_decide_eq_true_2 by done. cbn [orb].
        rewrite (bool_decide_eq_true_2 (Exists _ (cl :: doc)))
          by by apply Exists_cons_hd.
        by rewrite orb_true_r.
      * rewrite bool_decide_eq_false_2 by done. f_equal.
        apply bool_decide_ext. rewrite Exists_cons. tauto.
    + specialize (IH (pre ++ [cl])).
      rewrite length_app in IH. cbn [length] in IH. rewrite Nat.add_1_r in IH.
      rewrite <- !app_assoc in IH. rewrite IH.
      cbn [app]. do 2 f_equal. apply bool_decide_ext. rewrite Exists_cons.
      tauto.
Qed.

Lemma for_items_all doc :
  for_items (getElementsByClassName "curso-secundario" doc) false doc
  = (bool_decide (Exists (λ cl, secondary cl ∧ hidden cl) doc),
     flip_course <$> doc).
Proof. apply (for_items_from [] doc false). Qed.

Lemma cursos_eq p :
  cursos p
  = relabel (bool_decide (Exists (λ cl, secondary cl ∧ hidden cl) (elements p)))
      (mkPage (flip_course <$> elements p) (maisCursos p) (body p)).
Proof. unfold cursos. by rewrite for_items_all. Qed.
End Cursos.

Section CursosFacts.
Import Script.
Implicit Types (p : Page) (doc : list (gset string)) (cl : gset string).

(** X11.  On a page with the button, [cursos()] returns and labels the
    button "Ver Menos" exactly when some secondary course was hidden
    before the call, and "Ver Mais" otherwise; in particular "Ver Mais"
    on a page with no secondary course.  [document.body] is untouched. *)
Theorem cursos_label (p : Page) (html : string) :
  maisCursos p = Some html →
  ∃ p', cursos p = (Normal tt, p')
  ∧ (maisCursos p' = Some "Ver Menos"
     ↔ Exists (λ cl, secondary cl ∧ hidden cl) (elements p))
  ∧ (maisCursos p' = Some "Ver Mais"
     ↔ ¬ Exists (λ cl, secondary cl ∧ hidden cl) (elements p))
  ∧ (Forall (λ cl, ¬ secondary cl) (elements p) → maisCursos p' = Some "Ver Mais")
  ∧ body p' = body p.
Proof.
  intros Hbtn. rewrite cursos_eq. unfold relabel. simpl. rewrite Hbtn.
  eexists. split; [done|]. simpl.
  destruct (decide (Exists (λ cl, secondary cl ∧ hidden cl) (elements p)))
    as [He|He].
  - rewrite bool_decide_eq_true_2 by done. split_and!; try done.
    intros Hnone. exfalso. apply Exists_exists in He as (cl & Hin & Hs & _).
    by eapply Forall_forall in Hnone.
  - rewrite bool_decide_eq_false_2 by done. by split_and!.
Qed.

Lemma cursos_label_witness :
  ∃ p', cursos (mkPage [ {[ "curso-secundario"; "hidden" ]}; {[ "curso" ]} ]
                       (Some "Ver Mais") ∅) = (Normal tt, p')
        ∧ maisCursos p' = Some "Ver Menos".
Proof.
  destruct (cursos_label
              (mkPage [ {[ "curso-secundario"; "hidden" ]}; {[ "curso" ]} ]
                      (Some "Ver Mais") ∅) "Ver Mais" eq_refl)
    as (p' & Hrun & Hmenos & _).
  exists p'. split; [exact Hrun|]. apply Hmenos.
  apply Exists_cons_hd. split; unfold secondary, hidden; set_solver.
Defined.

(** X12.  Whether or not the page has the button, [cursos()] leaves the
    document with the same elements in the same order: an element without
    the class [curso-secundario] keeps its class list, and one with it
    keeps every token but "hidden", which it gains if it lacked it and
    loses if it had it. *)
Theorem cursos_flips_secondary (p : Page) (i : nat) (cl : gset string) :
  elements p !! i = Some cl →
  length (elements (cursos p).2) = length (elements p)
  ∧ ∃ cl', elements (cursos p).2 !! i = Some cl'
     ∧ (∀ token, token ≠ "hidden" → token ∈ cl' ↔ token ∈ cl)
     ∧ (secondary cl → (hidden cl' ↔ ¬ hidden cl))
     ∧ (¬ secondary cl → cl' = cl).
Proof.
  intros Hi. rewrite cursos_eq.
  assert (elements
            (relabel (bool_decide (Exists (λ cl, secondary cl ∧ hidden cl) (elements p)))
               (mkPage (flip_course <$> elements p) (maisCursos p) (body p))).2
          = flip_course <$> elements p) as ->.
  { unfold relabel. simpl. by destruct (maisCursos p). }
  rewrite length_fmap. split; [done|].
  exists (flip_course cl). rewrite list_lookup_fmap, Hi. split; [done|].
  unfold flip_course. destruct (decide (secondary cl)) as [Hs|Hs].
  - split_and!; [|intros _; apply toggle_token_hidden | done].
    intros token Hne. unfold toggle_token. case_decide; set_solver.
  - by split_and!.
Qed.

Lemma cursos_flips_secondary_witness :
  ∃ cl', elements (cursos (mkPage [ {[ "curso-secundario" ]} ] None ∅)).2 !! 0
         = Some cl'
         ∧ hidden cl'.
Proof.
  destruct (cursos_flips_secondary (mkPage [ {[ "curso-secundario" ]} ] None ∅)
              0 {[ "curso-secundario" ]} eq_refl)
    as (_ & cl' & Hcl' & _ & Hflip & _).
  exists cl'. split; [exact Hcl'|].
  apply Hflip; unfold secondary, hidden; set_solver.
Defined.

(** X13.  On a page with the button, two calls of [cursos()] give every
    element its original class list back; the label after the second call
    is "Ver Menos" exactly when some secondary course was visible before
    the first. *)
Theorem cursos_twice (p : Page) (html : string) :
  maisCursos p = Some html →
  ∃ p1 p2, cursos p = (Normal tt, p1) ∧ cursos p1 = (Normal tt, p2)
  ∧ elements p2 = elements p
  ∧ (maisCursos p2 = Some "Ver Menos"
     ↔ Exists (λ cl, secondary cl ∧ ¬ hidden cl) (elements p)).
Proof.
  intros Hbtn. rewrite cursos_eq. unfold relabel at 1. simpl. rewrite Hbtn.
  eexists _, _. split; [done|]. rewrite cursos_eq. unfold relabel. simpl.
  split; [done|]. simpl. split.
  - rewrite <- list_fmap_compose. rewrite <- (list_fmap_id (elements p)) at 2.
    apply list_fmap_ext. intros ? cl _. simpl. apply flip_course_twice.
  - assert (Exists (λ cl, secondary cl ∧ hidden cl) (flip_course <$> elements p)
            ↔ Exists (λ cl, secondary cl ∧ ¬ hidden cl) (elements p)) as Hiff.
    { assert (∀ cl, secondary (flip_course cl) ∧ hidden (flip_course cl)
                    ↔ secondary cl ∧ ¬ hidden cl) as Hcl.
      { intros cl. unfold flip_course. destruct (decide (secondary cl)) as [Hs|Hs].
        - by rewrite toggle_token_secondary, toggle_token_hidden.
        - tauto. }
      rewrite Exists_fmap.
      split; intros H; (eapply Exists_impl; [exact H|]); intros cl; apply Hcl. }
    destruct (decide (Exists (λ cl, secondary cl ∧ hidden cl)
                        (flip_course <$> elements p))) as [He|He].
    + rewrite bool_decide_eq_true_2 by done. split; [intros _; by apply Hiff | done].
    + rewrite bool_decide_eq_false_2 by done.
      split; [done | intros H; by apply Hiff in H].
Qed.

Lemma cursos_twice_witness :
  ∃ p1 p2,
    cursos (mkPage [ {[ "curso-secundario"; "hidden" ]} ] (Some "Ver Mais") ∅)
    = (Normal tt, p1)
    ∧ cursos p1 = (Normal tt, p2)
    ∧ elements p2 = [ {[ "curso-secundario"; "hidden" ]} ].
Proof.
  destruct (cursos_twice
              (mkPage [ {[ "curso-secundario"; "hidden" ]} ] (Some "Ver Mais") ∅)
              "Ver Mais" eq_refl)
    as (p1 & p2 & H1 & H2 & H3 & _).
  by exists p1, p2.
Defined.

(** X14.  On a page without [button.maisCursos], [cursos()] raises a
    [TypeError], and it raises after the loop: every secondary course has
    had "hidden" toggled, so a second failing call undoes the first. *)
Theorem cursos_without_button (p : Page) :
  maisCursos p = None →
  (cursos p).1 = Throw "TypeError"
  ∧ elements (cursos p).2 = flip_course <$> elements p
  ∧ maisCursos (cursos p).2 = None
  ∧ (cursos (cursos p).2).1 = Throw "TypeError"
  ∧ elements (cursos (cursos p).2).2 = elements p.
Proof.
  intros Hbtn. rewrite !cursos_eq. unfold relabel. simpl. rewrite Hbtn. simpl.
  rewrite ?Hbtn. simpl. split_and!; try done.
  rewrite <- list_fmap_compose. rewrite <- (list_fmap_id (elements p)) at 2.
  apply list_fmap_ext. intros ? cl _. simpl. apply flip_course_twice.
Qed.

Lemma cursos_without_button_witness :
  (cursos (mkPage [ {[ "curso-secundario" ]} ] None ∅)).1 = Throw "TypeError".
Proof.
  apply (cursos_without_button (mkPage [ {[ "curso-secundario" ]} ] None ∅)).
  reflexivity.
Defined.
End CursosFacts.

Section CursosLive.
Import Script.
Implicit Types (p : Page) (doc : list (gset string)) (cl : gset string).

Lemma by_class_from_toggle i item doc :
  by_class_from "curso-secundario" i (alter (toggle_token "hidden") item doc)
  = by_class_from "curso-secundario" i doc.
Proof.
  revert i item. induction doc as [|cl doc IH]; intros i [|item]; try done.
  - cbn [alter list_alter by_class_from].
    destruct (decide ("curso-secundario" ∈ cl)) as [Hs|Hs].
    + rewrite decide_True; [done|]. by apply (proj2 (toggle_token_secondary cl)).
    + rewrite decide_False; [done|].
      intros H. by apply (proj1 (toggle_token_secondary cl)) in H.
  - cbn [alter list_alter by_class_from].
    destruct (decide _); [f_equal|]; apply IH.
Qed.

Lemma length_by_class_from c i doc : length (by_class_from c i doc) ≤ length doc.
Proof.
  revert i. induction doc as [|cl doc IH]; intros i; simpl; [lia|].
  destruct (decide _); simpl; specialize (IH (S i)); lia.
Qed.

(** With enough fuel the loop on the live collection does what the loop
    on the snapshot does from position [i] on. *)
Lemma for_live_for_items fuel i isVisible doc :
  length (getElementsByClassName "curso-secundario" doc) - i < fuel →
  for_live fuel i isVisible doc
  = Some (for_items (drop i (getElementsByClassName "curso-secundario" doc))
            isVisible doc).
Proof.
  revert i isVisible doc. induction fuel as [|fuel IH]; intros i isVisible doc Hfuel;
    [lia|].
  cbn [for_live].
  destruct (getElementsByClassName "curso-secundario" doc !! i) as [item|] eqn:E.
  - rewrite (drop_S _ _ _ E). cbn [for_items].
    rewrite IH.
    + unfold getElementsByClassName. by rewrite by_class_from_toggle.
    + unfold getElementsByClassName in *. rewrite by_class_from_toggle.
      apply lookup_lt_Some in E. lia.
  - apply lookup_ge_None in E. by rewrite drop_ge.
Qed.

(** X15.  The two versions of [cursos()] agree: the one that indexes the
    live collection terminates within one turn per secondary course (so
    within one per element of the page), and then has returned or raised
    exactly as the one that copies the collection first, leaving the same
    page. *)
Theorem cursos_live_agrees (p : Page) (fuel : nat) :
  length (getElementsByClassName "curso-secundario" (elements p)) < fuel →
  cursos_live fuel p = Some (cursos p)
  ∧ cursos_live (S (length (elements p))) p = Some (cursos p).
Proof.
  assert (∀ n, length (getElementsByClassName "curso-secundario" (elements p)) < n →
               cursos_live n p = Some (cursos p)) as Hany.
  { intros n Hn. unfold cursos_live, cursos.
    rewrite for_live_for_items by lia. rewrite drop_0.
    by destruct (for_items _ false (elements p)). }
  intros Hfuel. split; [by apply Hany|]. apply Hany.
  pose proof (length_by_class_from "curso-secundario" 0 (elements p)).
  unfold getElementsByClassName. lia.
Qed.

Lemma cursos_live_agrees_witness :
  cursos_live 2 (mkPage [ {[ "curso-secundario"; "hidden" ]}; {[ "curso" ]} ]
                        (Some "Ver Mais") ∅)
  = Some (cursos (mkPage [ {[ "curso-secundario"; "hidden" ]}; {[ "curso" ]} ]
                         (Some "Ver Mais") ∅)).
Proof.
  apply (cursos_live_agrees
           (mkPage [ {[ "curso-secundario"; "hidden" ]}; {[ "curso" ]} ]
                   (Some "Ver Mais") ∅) 2).
  vm_compute. lia.
Defined.
End CursosLive.

(** * Properties of the navigation bar *)

Section NavKeys.
Import Navbar.
Implicit Types (s : Nav) (key : string).

Lemma set_focused_same s i : focused s = Some i → set_focused (Some i) s = s.
Proof. intros <-. by destruct s. Qed.

Lemma nav_target_lt n i key : i < n → nav_target n i key < n.
Proof.
  intros Hi. unfold nav_target. repeat case_decide; try lia.
  apply Nat.mod_upper_bound. lia.
Qed.

Lemma press_target s i key :
  focused s = Some i → i < length (navLinks s) →
  press key s
  = (Normal tt, set_focused (Some (nav_target (length (navLinks s)) i key)) s).
Proof.
  intros Hf Hi. unfold press. rewrite Hf. unfold link_keydown, nav_target.
  pose proof (Nat.mod_upper_bound (i + 1) (length (navLinks s))).
  repeat case_decide; unfold focus_link; try (rewrite decide_True by lia; done).
  by rewrite (set_focused_same s i).
Qed.

Lemma presses_target s i keys :
  focused s = Some i → i < length (navLinks s) →
  sequence (press <$> keys) s
  = (Normal tt,
     set_focused
       (Some (foldl (nav_target (length (navLinks s))) i keys)) s).
Proof.
  revert s i. induction keys as [|key keys IH]; intros s i Hf Hi.
  - simpl. by rewrite (set_focused_same s i).
  - rewrite fmap_cons. cbn [sequence]. rewrite (press_target s i) by done.
    rewrite (IH _ (nav_target (length (navLinks s)) i key));
      [| done | by apply nav_target_lt].
    cbn [foldl]. by destruct s.
Qed.

Lemma nav_target_right n i : nav_target n i "ArrowRight" = (i + 1) mod n.
Proof. reflexivity. Qed.

Lemma nav_target_down n i : nav_target n i "ArrowDown" = (i + 1) mod n.
Proof. reflexivity. Qed.

Lemma nav_target_left n i :
  nav_target n i "ArrowLeft" = if decide (i = 0) then n - 1 else i - 1.
Proof. reflexivity. Qed.

Lemma nav_target_up n i :
  nav_target n i "ArrowUp" = if decide (i = 0) then n - 1 else i - 1.
Proof. reflexivity. Qed.

Lemma nav_target_home n i : nav_target n i "Home" = 0.
Proof. reflexivity. Qed.

Lemma nav_target_end n i : nav_target n i "End" = n - 1.
Proof. reflexivity. Qed.

Lemma rights_target n i k :
  i < n → foldl (nav_target n) i (replicate k "ArrowRight") = (i + k) mod n.
Proof.
  intros Hi. revert i Hi. induction k as [|k IH]; intros i Hi.
  - simpl. rewrite Nat.add_0_r. by rewrite Nat.mod_small.
  - cbn [replicate foldl]. rewrite IH by (by apply nav_target_lt).
    rewrite nav_target_right.
    rewrite Nat.Div0.add_mod_idemp_l. f_equal. lia.
Qed.

(** X16.  While a navigation link has focus, no sequence of key presses
    makes its listener raise or moves focus off the links.  ArrowRight
    (or ArrowDown) and ArrowLeft (or ArrowUp) undo each other; as many
    ArrowRight presses as there are links come back to the start; after
    End, ArrowRight wraps to the first link, and after Home, ArrowLeft
    wraps to the last. *)
Theorem nav_keys_wrap (s : Nav) (i : nat) (keys : list string) :
  focused s = Some i → i < length (navLinks s) →
  let n := length (navLinks s) in
  let after l := focused (sequence (press <$> l) s).2 in
  (sequence (press <$> keys) s).1 = Normal tt
  ∧ (∃ j, after keys = Some j ∧ j < n)
  ∧ after ["ArrowRight"; "ArrowLeft"] = Some i
  ∧ after ["ArrowUp"; "ArrowDown"] = Some i
  ∧ after (replicate n "ArrowRight") = Some i
  ∧ after ["End"; "ArrowRight"] = Some 0
  ∧ after ["Home"; "ArrowLeft"] = Some (n - 1).
Proof.
  intros Hf Hi. cbv zeta.
  assert (∀ l, sequence (press <$> l) s
               = (Normal tt,
                  set_focused (Some (foldl (nav_target (length (navLinks s))) i l)) s))
    as Hrun by (intros l; by apply presses_target).
  rewrite !Hrun. cbn [fst snd focused set_focused].
  split_and!; try done.
  - eexists. split; [done|].
    clear Hrun Hf. revert i Hi. induction keys as [|key keys IH]; intros i Hi; [done|].
    cbn [foldl]. by apply IH, nav_target_lt.
  - f_equal. cbn [foldl]. rewrite nav_target_right, nav_target_left.
    destruct (decide (i + 1 = length (navLinks s))) as [Hlast|Hlast].
    + rewrite Hlast, Nat.Div0.mod_same.
      rewrite decide_True by done. lia.
    + rewrite Nat.mod_small by lia. rewrite decide_False by lia. lia.
  - f_equal. cbn [foldl]. rewrite nav_target_up, nav_target_down.
    destruct (decide (i = 0)) as [->|Hne].
    + replace (length (navLinks s) - 1 + 1) with (length (navLinks s)) by lia.
      apply Nat.Div0.mod_same.
    + replace (i - 1 + 1) with i by lia. by apply Nat.mod_small.
  - f_equal. rewrite rights_target by done.
    rewrite <- (Nat.mul_1_l (length (navLinks s))) at 1.
    rewrite Nat.Div0.mod_add. by apply Nat.mod_small.
  - f_equal. cbn [foldl]. rewrite nav_target_end, nav_target_right.
    replace (length (navLinks s) - 1 + 1) with (length (navLinks s)) by lia.
    apply Nat.Div0.mod_same.
Qed.

Lemma nav_keys_wrap_witness :
  focused
    (sequence (press <$> ["End"; "ArrowRight"])
       (mkNav 0 ∅ [] [] None [] (Some 1)
          None [mkLink (Some "#a") ∅; mkLink (Some "#b") ∅; mkLink (Some "#c") ∅]
          0 100 false)).2
  = Some 0.
Proof.
  pose proof
    (nav_keys_wrap
       (mkNav 0 ∅ [] [] None [] (Some 1)
          None [mkLink (Some "#a") ∅; mkLink (Some "#b") ∅; mkLink (Some "#c") ∅]
          0 100 false) 1 [] eq_refl) as H.
  cbv zeta in H. apply H. simpl. lia.
Defined.
End NavKeys.

Section NavScroll.
Import Navbar.
Implicit Types (s : Nav) (h : Header) (e : Event).

Lemma sequence_app {S} (l1 l2 : list (Eff S unit)) (s : S) :
  (sequence l1 s).1 = Normal tt →
  sequence (l1 ++ l2) s = sequence l2 (sequence l1 s).2.
Proof.
  revert s. induction l1 as [|m l1 IH]; intros s; [done|].
  cbn [app sequence]. destruct (m s) as [[[]|err] s']; [apply IH | done].
Qed.

Lemma dispatch_all_invariant (P : Nav → Prop) (l : list Event) :
  (∀ e s, e ∈ l → P s → (dispatch e s).1 = Normal tt ∧ P (dispatch e s).2) →
  ∀ s, P s → (dispatch_all l s).1 = Normal tt ∧ P (dispatch_all l s).2.
Proof.
  unfold dispatch_all. induction l as [|e l IH]; intros Hstep s Hs; [done|].
  rewrite fmap_cons. cbn [sequence].
  destruct (Hstep e s) as [Hret HP]; [by left | done |].
  destruct (dispatch e s) as [[[]|err] s']; [|done].
  apply IH; [|done]. intros e' s'' Hin. apply Hstep. by right.
Qed.

(** The header [updateHeader] leaves. *)
Lemma updateHeader_header s h :
  header s = Some h →
  ∃ h', updateHeader s
        = (Normal tt, set_ticking false (set_lastScrollY (scrollY s) (set_header h' s)))
    ∧ ("scrolled" ∈ classList h' ↔ (50 < scrollY s)%Z)
    ∧ offsetHeight h' = offsetHeight h
    ∧ transform h'
      = if decide (scrollThreshold s < scrollY s)%Z then
          if decide (lastScrollY s < scrollY s ∧ 200 < scrollY s)%Z
          then hidden_transform else shown_transform
        else transform h.
Proof.
  intros Hh. unfold updateHeader. rewrite Hh. eexists. split; [done|].
  repeat case_decide; simpl; split_and!; try done; set_solver.
Qed.

Lemma dispatch_Scroll_ready y s :
  scroll_ready s →
  dispatch (Scroll y) s
  = (Normal tt,
     if ticking s then set_scrollY y s
     else set_ticking true (set_frames [UpdateHeader] (set_scrollY y s))).
Proof.
  intros (Hl & _ & Ht). cbn [dispatch]. rewrite Hl. cbn [fmap list_fmap sequence call].
  unfold requestTick. destruct s; simpl in *.
  by destruct Ht as [[-> ->] | [-> ->]].
Qed.

Lemma dispatch_Frame_ready s :
  scroll_ready s →
  dispatch Frame s
  = if ticking s
    then ((updateHeader (set_frames [] s)).1, (updateHeader (set_frames [] s)).2)
    else (Normal tt, s).
Proof.
  intros (_ & _ & Ht). cbn [dispatch].
  destruct Ht as [[-> E] | [-> ->]].
  - rewrite E. cbn [fmap list_fmap sequence]. f_equal.
    destruct s; simpl in *; by subst.
  - cbn [fmap list_fmap sequence call].
    by destruct (updateHeader (set_frames [] s)) as [[[]|err] s'].
Qed.

Lemma scroll_ready_step e s :
  scroll_ready s →
  (dispatch e s).1 = Normal tt ∧ scroll_ready (dispatch e s).2
  ∧ scrollThreshold (dispatch e s).2 = scrollThreshold s.
Proof.
  intros Hr. pose proof Hr as (Hl & [h Hh] & Ht). destruct e as [y| |].
  - rewrite dispatch_Scroll_ready by done.
    destruct (ticking s) eqn:E; cbn [fst snd]; (split; [done|]); (split; [|done]).
    + unfold scroll_ready. simpl. rewrite E.
      split_and!; [done | by eexists |]. right. by destruct Ht as [[? ?]|[? ?]].
    + unfold scroll_ready. simpl. split_and!; [done | by eexists | by right].
  - rewrite dispatch_Frame_ready by done.
    destruct (ticking s) eqn:E; cbn [fst snd]; [|done].
    destruct (updateHeader_header (set_frames [] s) h Hh) as (h' & -> & _).
    cbn [fst snd]. split; [done|]. split; [|done].
    unfold scroll_ready. simpl. split_and!; [done | by eexists | by left].
  - done.
Qed.

(** What [initScrollEffects] leaves on a page with a header. *)
Lemma initScrollEffects_ready s h :
  constructed s → header s = Some h →
  ∃ h', initScrollEffects s
        = (Normal tt,
           set_ticking false (set_lastScrollY (scrollY s)
             (set_header h' (set_scroll_listeners [RequestTick] s))))
    ∧ transform h'
      = (if decide (100 < scrollY s)%Z then shown_transform else transform h).
Proof.
  intros (Hlast & Hth & Hl & Hf) Hh. unfold initScrollEffects.
  set (s2 := set_scroll_listeners _ _).
  destruct (updateHeader_header s2 h Hh) as (h' & Heq & _ & _ & Htr).
  exists h'. rewrite Heq. subst s2. cbn in Htr |- *. rewrite Hl. split.
  - by destruct s.
  - rewrite Htr, Hth, Hlast.
    destruct (decide (100 < scrollY s)%Z); [|done].
    by rewrite decide_False by lia.
Qed.

(** X17.  On a page with a header, after [initScrollEffects] and any
    sequence of scroll events, animation frames and calls of [destroy],
    nothing has raised, [requestTick] is still the listener for [scroll]
    ([destroy] removes nothing), and at most one [updateHeader] is queued,
    exactly when [ticking] is set: the scroll events between two frames
    queue one update.  After a further scroll to [y] and the next frame,
    the update has run on the latest position: [lastScrollY] is [y],
    nothing is queued, and the header has the class [scrolled] exactly
    when [y] is beyond 50. *)
Theorem scroll_updates_are_debounced
    (s0 : Nav) (h : Header) (events : list Event) (y : Z) :
  constructed s0 → header s0 = Some h →
  let s1 := (initScrollEffects s0).2 in
  let s := (dispatch_all events s1).2 in
  let s' := (dispatch_all (events ++ [Scroll y; Frame]) s1).2 in
  (initScrollEffects s0).1 = Normal tt
  ∧ (dispatch_all (events ++ [Scroll y; Frame]) s1).1 = Normal tt
  ∧ scroll_listeners s = [RequestTick]
  ∧ length (frames s) ≤ 1
  ∧ (ticking s = true ↔ frames s = [UpdateHeader])
  ∧ lastScrollY s' = y ∧ frames s' = [] ∧ ticking s' = false
  ∧ ∃ h', header s' = Some h' ∧ ("scrolled" ∈ classList h' ↔ (50 < y)%Z).
Proof.
  intros Hc Hh. cbv zeta.
  destruct (initScrollEffects_ready s0 h Hc Hh) as (h0 & -> & _).
  cbn [fst snd]. set (s1 := set_ticking false _).
  assert (scroll_ready s1) as Hr1.
  { subst s1. unfold scroll_ready. simpl. destruct Hc as (_ & _ & _ & ->).
    split_and!; [done | by eexists | by left]. }
  destruct (dispatch_all_invariant scroll_ready events) with (s := s1)
    as [Hret Hr]; [|done|].
  { intros e s _ Hs. by destruct (scroll_ready_step e s Hs) as (? & ? & _). }
  unfold dispatch_all in *. rewrite fmap_app, sequence_app by done.
  revert Hr. generalize (sequence (dispatch <$> events) s1).2. intros s Hr.
  pose proof Hr as (Hl & [hs Hhs] & Ht).
  split; [done|].
  rewrite fmap_cons. cbn [fmap list_fmap sequence].
  rewrite dispatch_Scroll_ready by done. cbn [fst snd].
  set (s2 := if ticking s then _ else _).
  assert (scroll_ready s2 ∧ ticking s2 = true ∧ scrollY s2 = y
          ∧ header s2 = Some hs) as (Hr2 & Ht2 & Hy2 & Hh2).
  { subst s2. unfold scroll_ready.
    destruct Ht as [[E1 E2] | [E1 E2]]; rewrite E1; simpl; rewrite ?E1.
    - split_and!; eauto.
    - split_and!; eauto. }
  rewrite dispatch_Frame_ready, Ht2 by done.
  destruct (updateHeader_header (set_frames [] s2) hs Hh2) as (h' & -> & Hsc & _).
  cbn [fst snd]. split_and!; try done.
  - by destruct Ht as [[_ ->] | [_ ->]]; simpl; lia.
  - destruct Ht as [[E1 ->] | [E1 ->]]; by rewrite E1.
  - exists h'. split; [done|]. cbn in Hsc. by rewrite Hy2 in Hsc.
Qed.

Lemma scroll_updates_are_debounced_witness :
  lastScrollY
    (dispatch_all ([Scroll 10; Scroll 300; Destroy] ++ [Scroll 120; Frame])
       (initScrollEffects
          (mkNav 0 ∅ [] [] None [] None (Some (mkHeader ∅ "" 64)) [] 0 100 false)).2).2
  = 120%Z.
Proof.
  pose proof
    (scroll_updates_are_debounced
       (mkNav 0 ∅ [] [] None [] None (Some (mkHeader ∅ "" 64)) [] 0 100 false)
       (mkHeader ∅ "" 64) [Scroll 10; Scroll 300; Destroy] 120) as H.
  cbv zeta in H. apply H; [by split_and! | reflexivity].
Defined.
End NavScroll.

Section NavHeaderVisibility.
Import Navbar.
Implicit Types (s : Nav) (h : Header) (e : Event).

(** X18.  On a page whose header is not slid out to begin with, after
    [initScrollEffects] and any sequence of scroll events, frames and
    [destroy] calls in which no scroll goes beyond 200, the header is not
    slid out of view. *)
Theorem header_visible_near_top (s0 : Nav) (h : Header) (events : list Event) :
  constructed s0 → header s0 = Some h → transform h ≠ hidden_transform →
  scrolls_within 200 events →
  ¬ header_hidden (dispatch_all events (initScrollEffects s0).2).2.
Proof.
  intros Hc Hh Hvis Hwithin.
  destruct (initScrollEffects_ready s0 h Hc Hh) as (h0 & -> & Htr0).
  cbn [snd]. set (s1 := set_ticking false _).
  set (P := λ s, scroll_ready s ∧ ¬ header_hidden s
                 ∧ (ticking s = true → (scrollY s ≤ 200)%Z)).
  assert (P s1) as HP1.
  { subst s1 P. cbv beta. split_and!.
    - unfold scroll_ready. simpl. destruct Hc as (_ & _ & _ & ->).
      split_and!; [done | by eexists | by left].
    - unfold header_hidden. simpl. rewrite Htr0. intros [=].
      case_decide; [done | by apply Hvis].
    - done. }
  destruct (dispatch_all_invariant P events) with (s := s1) as [_ (_ & Hfinal & _)];
    [|done|done].
  intros e s Hin (Hr & Hnh & Hy).
  destruct (scroll_ready_step e s Hr) as (Hret & Hr' & _).
  split; [done|]. split; [done|].
  pose proof Hr as (Hl & [hs Hhs] & Ht). destruct e as [y| |].
  - rewrite dispatch_Scroll_ready by done. cbn [snd].
    destruct (ticking s); (split; [done|]); intros _; simpl; by apply Hwithin.
  - rewrite dispatch_Frame_ready by done.
    destruct (ticking s) eqn:E; cbn [snd]; [|split; [done | by rewrite E]].
    destruct (updateHeader_header (set_frames [] s) hs Hhs)
      as (h' & -> & _ & _ & Htr).
    cbn [snd]. split; [|done]. unfold header_hidden. simpl. intros Hhid.
    assert (transform h' = hidden_transform) as Hhid' by congruence.
    rewrite Htr in Hhid'. cbn in Hhid'. specialize (Hy eq_refl).
    destruct (decide (scrollThreshold s < scrollY s)%Z).
    + rewrite decide_False in Hhid' by lia. done.
    + apply Hnh. unfold header_hidden. by rewrite Hhs, <- Hhid'.
  - done.
Qed.

Lemma header_visible_near_top_witness :
  ¬ header_hidden
      (dispatch_all [Scroll 150; Frame; Scroll 200; Frame]
         (initScrollEffects
            (mkNav 0 ∅ [] [] None [] None (Some (mkHeader ∅ "" 64)) [] 0 100 false)).2).2.
Proof.
  apply (header_visible_near_top
           (mkNav 0 ∅ [] [] None [] None (Some (mkHeader ∅ "" 64)) [] 0 100 false)
           (mkHeader ∅ "" 64)).
  - by split_and!.
  - reflexivity.
  - discriminate.
  - intros y Hy. repeat (apply elem_of_cons in Hy as [Hy | Hy]; [by simplify_eq|]).
    by apply elem_of_nil in Hy.
Defined.

(** A scroll to [y] and the frame after it, with nothing queued before. *)
Lemma scroll_then_frame s hs y :
  scroll_ready s → ticking s = false → header s = Some hs →
  ∃ s' h', dispatch_all [Scroll y; Frame] s = (Normal tt, s')
    ∧ header s' = Some h'
    ∧ transform h'
      = (if decide (scrollThreshold s < y)%Z then
           if decide (lastScrollY s < y ∧ 200 < y)%Z
           then hidden_transform else shown_transform
         else transform hs)
    ∧ scroll_ready s' ∧ ticking s' = false
    ∧ lastScrollY s' = y ∧ scrollThreshold s' = scrollThreshold s.
Proof.
  intros Hr Ht Hh. unfold dispatch_all. cbn [fmap list_fmap sequence].
  rewrite dispatch_Scroll_ready, Ht by done.
  set (s2 := set_ticking true _).
  assert (scroll_ready s2) as Hr2.
  { subst s2. destruct Hr as (Hl & Hsome & _). unfold scroll_ready. simpl.
    split_and!; eauto. }
  rewrite dispatch_Frame_ready by done.
  replace (ticking s2) with true by done.
  destruct (updateHeader_header (set_frames [] s2) hs Hh) as (h' & -> & _ & _ & Htr).
  cbn [fst snd]. eexists _, h'. split; [done|].
  split_and!; try done.
  destruct Hr as (Hl & Hsome & _). unfold scroll_ready. simpl.
  split_and!; eauto.
Qed.

(** X19.  The header slides out on a scroll downwards beyond 200, and an
    update at a position of at most 100 leaves the transform alone: after
    such a scroll down, one jump back to within 100 of the top (to the
    very top, say) leaves the header slid out of view. *)
Theorem header_stays_hidden_after_jump (s0 : Nav) (h : Header) (y1 y2 : Z) :
  constructed s0 → header s0 = Some h →
  (200 < y1)%Z → (scrollY s0 < y1)%Z → (y2 ≤ 100)%Z →
  header_hidden
    (dispatch_all [Scroll y1; Frame] (initScrollEffects s0).2).2
  ∧ header_hidden
      (dispatch_all ([Scroll y1; Frame] ++ [Scroll y2; Frame])
         (initScrollEffects s0).2).2.
Proof.
  intros Hc Hh Hy1 Hdown Hy2.
  destruct (initScrollEffects_ready s0 h Hc Hh) as (h0 & -> & _).
  cbn [snd]. pose proof Hc as (Hlast & Hth & Hl & Hf).
  set (s1 := set_ticking false _).
  assert (scroll_ready s1) as Hr1.
  { subst s1. unfold scroll_ready. simpl. rewrite Hf.
    split_and!; [done | by eexists | by left]. }
  destruct (scroll_then_frame s1 h0 y1 Hr1 eq_refl eq_refl)
    as (s2 & h2 & Hrun1 & Hh2 & Htr2 & Hr2 & Ht2 & Hlast2 & Hth2).
  assert (transform h2 = hidden_transform) as Hhid2.
  { rewrite Htr2. subst s1. simpl. rewrite Hth.
    rewrite decide_True by lia. by rewrite decide_True by lia. }
  unfold dispatch_all in *. rewrite fmap_app, sequence_app by by rewrite Hrun1.
  rewrite Hrun1. cbn [snd].
  destruct (scroll_then_frame s2 h2 y2 Hr2 Ht2 Hh2)
    as (s3 & h3 & Hrun2 & Hh3 & Htr3 & _).
  unfold dispatch_all in Hrun2. rewrite Hrun2. cbn [snd].
  unfold header_hidden. rewrite Hh2, Hh3. simpl. split; [by rewrite Hhid2|].
  rewrite Htr3, Hth2. subst s1. simpl. rewrite Hth.
  rewrite decide_False by lia. by rewrite Hhid2.
Qed.

Lemma header_stays_hidden_after_jump_witness :
  header_hidden
    (dispatch_all ([Scroll 900; Frame] ++ [Scroll 0; Frame])
       (initScrollEffects
          (mkNav 0 ∅ [] [] None [] None (Some (mkHeader ∅ "" 64)) [] 0 100 false)).2).2.
Proof.
  apply (header_stays_hidden_after_jump
           (mkNav 0 ∅ [] [] None [] None (Some (mkHeader ∅ "" 64)) [] 0 100 false)
           (mkHeader ∅ "" 64) 900 0); try done.
Defined.
End NavHeaderVisibility.

Section NavSections.
Import Navbar.
Implicit Types (s : Nav) (id : string).

Lemma activate_spec id (link : Link) :
  href (activate id link) = href link
  ∧ ("active" ∈ link_classes (activate id link) ↔ href link = Some ("#" +:+ id))
  ∧ ∀ c, c ≠ "active" →
         c ∈ link_classes (activate id link) ↔ c ∈ link_classes link.
Proof.
  unfold activate. case_decide; simpl; split_and!; try done; set_solver.
Qed.

(** X20.  [scrollToSection(id)] does nothing when no element has the id
    (so for the empty id); on a page without header it raises a
    [TypeError] before anything changed; otherwise it asks the window to
    scroll to the element's offset less the header's height less 20,
    pushes "#id" on the history, and leaves the links as
    [setActiveNavItem(id)] does: each link keeps its [href] and its other
    classes and is [active] exactly when its [href] is "#id". *)
Theorem scrollToSection_cases (id : string) (s : Nav) :
  scrollToSection "" s = (Normal tt, s)
  ∧ match getElementById id s, header s with
    | None, _ => scrollToSection id s = (Normal tt, s)
    | Some _, None => scrollToSection id s = (Throw "TypeError", s)
    | Some offsetTop, Some h =>
        ∃ s', scrollToSection id s = (Normal tt, s')
        ∧ scrolled_to s' = Some (offsetTop - offsetHeight h - 20)%Z
        ∧ history s' = history s ++ ["#" +:+ id]
        ∧ navLinks s' = navLinks (setActiveNavItem id s).2
        ∧ length (navLinks s') = length (navLinks s)
        ∧ ∀ i link, navLinks s !! i = Some link →
            ∃ link', navLinks s' !! i = Some link'
            ∧ href link' = href link
            ∧ ("active" ∈ link_classes link' ↔ href link = Some ("#" +:+ id))
            ∧ ∀ c, c ≠ "active" →
                   c ∈ link_classes link' ↔ c ∈ link_classes link
    end.
Proof.
  split; [done|]. unfold scrollToSection.
  destruct (getElementById id s) as [top|]; [|done].
  destruct (header s) as [h|]; [|done].
  eexists. split; [done|]. simpl. split_and!; try done.
  - by rewrite length_fmap.
  - intros i link Hi. exists (activate id link).
    rewrite list_lookup_fmap, Hi. split; [done|]. apply activate_spec.
Qed.
End NavSections.

Section MobileMenu.
Import Navbar.
Implicit Types (m : Menu).

Lemma remove_handler_absent h (l : list Handler) :
  h ∉ l → remove_handler h l = l.
Proof.
  induction l as [|h' l IH]; [done|]. intros Hnot. simpl.
  rewrite decide_False by (intros ->; apply Hnot; by left).
  rewrite IH; [done|]. intros Hin. apply Hnot. by right.
Qed.

(** One opening and one closing of the menu. *)
Lemma open_close m closer :
  isOpen m = false → 0 < focusable m → TrapFocusMethod ∉ menu_keydown m →
  sequence (menu_dispatch <$> [ToggleClick; closer]) m
  = (Normal tt,
     mkMenu false (menu_classes m ∖ {["open"]}) (Some "false")
            (menu_keydown m ++ [TrapClosure]) (focusable m) (Some 0)).
Proof.
  intros Hclosed Hfoc Hnot. cbn [fmap list_fmap sequence menu_dispatch].
  unfold toggleMenu at 1. rewrite Hclosed. cbn [negb]. unfold trapFocus.
  cbn [isOpen menu_classes aria_expanded menu_keydown focusable activeElement].
  rewrite decide_False by lia.
  assert (menu_dispatch closer
            (mkMenu true (menu_classes m ∪ {["open"]}) (Some "true")
               (menu_keydown m ++ [TrapClosure]) (focusable m) (Some 0))
          = (Normal tt,
             mkMenu false (menu_classes m ∖ {["open"]}) (Some "false")
               (menu_keydown m ++ [TrapClosure]) (focusable m) (Some 0))) as ->.
  { assert (toggleMenu
              (mkMenu true (menu_classes m ∪ {["open"]}) (Some "true")
                 (menu_keydown m ++ [TrapClosure]) (focusable m) (Some 0))
            = (Normal tt,
               mkMenu false (menu_classes m ∖ {["open"]}) (Some "false")
                 (menu_keydown m ++ [TrapClosure]) (focusable m) (Some 0))) as Ht.
    { unfold toggleMenu, releaseFocus. simpl.
      rewrite remove_handler_absent.
      - do 2 f_equal. set_solver.
      - rewrite elem_of_app, list_elem_of_singleton. by intros [|]. }
    destruct closer; simpl; exact Ht. }
  done.
Qed.

(** X21.  Opening the menu adds a [keydown] listener to it and closing it
    removes none ([releaseFocus] asks to remove a function that was never
    added): after any number of rounds of opening the menu with a click on
    the toggle and closing it, by a second click, a click outside or
    Escape, nothing has raised, the menu is closed, its classes are those
    it started with, [aria-expanded] is "false", and it has one more
    listener per round. *)
Theorem menu_listeners_accumulate (m : Menu) (closers : list MenuEvent) :
  isOpen m = false → "open" ∉ menu_classes m → 0 < focusable m →
  TrapFocusMethod ∉ menu_keydown m →
  let events := closers ≫= λ closer, [ToggleClick; closer] in
  let m' := (sequence (menu_dispatch <$> events) m).2 in
  (sequence (menu_dispatch <$> events) m).1 = Normal tt
  ∧ isOpen m' = false
  ∧ menu_classes m' = menu_classes m
  ∧ (closers ≠ [] → aria_expanded m' = Some "false")
  ∧ menu_keydown m' = menu_keydown m ++ replicate (length closers) TrapClosure.
Proof.
  cbv zeta. revert m. induction closers as [|closer closers IH];
    intros m Hclosed Hclass Hfoc Hnot.
  - simpl. rewrite app_nil_r. by split_and!.
  - rewrite bind_cons, fmap_app.
    pose proof (open_close m closer Hclosed Hfoc Hnot) as Hround.
    rewrite sequence_app by by rewrite Hround.
    rewrite Hround. cbn [snd].
    set (m1 := mkMenu false _ _ _ _ _).
    destruct (IH m1) as (Hret & Hopen & Hcls & Haria & Hkeys).
    + done.
    + subst m1. simpl. set_solver.
    + done.
    + subst m1. simpl. rewrite elem_of_app, list_elem_of_singleton.
      by intros [|].
    + rewrite Hret, Hopen, Hcls, Hkeys. subst m1. simpl.
      split_and!; try done.
      * set_solver.
      * intros _. destruct closers as [|c closers']; [done|].
        by apply Haria.
      * by rewrite <- app_assoc.
Qed.

Lemma menu_listeners_accumulate_witness :
  menu_keydown
    (sequence
       (menu_dispatch <$> ([ToggleClick; Escape; OutsideClick] ≫= λ closer, [ToggleClick; closer]))
       (mkMenu false ∅ None [] 3 None)).2
  = [TrapClosure; TrapClosure; TrapClosure].
Proof.
  pose proof
    (menu_listeners_accumulate (mkMenu false ∅ None [] 3 None)
       [ToggleClick; Escape; OutsideClick] eq_refl) as H.
  cbv zeta in H. apply H.
  - simpl. apply not_elem_of_empty.
  - simpl. lia.
  - simpl. apply not_elem_of_nil.
Defined.

(** X22.  Opening a menu that holds no focusable element raises a
    [TypeError], and it raises late: the menu is already marked open, with
    the class [open] and [aria-expanded] "true", and the listener is
    already added.  Escape then closes it without raising. *)
Theorem empty_menu_open_throws (m : Menu) :
  isOpen m = false → focusable m = 0 →
  ∃ m1, toggleMenu m = (Throw "TypeError", m1)
  ∧ isOpen m1 = true ∧ "open" ∈ menu_classes m1
  ∧ aria_expanded m1 = Some "true"
  ∧ menu_keydown m1 = menu_keydown m ++ [TrapClosure]
  ∧ activeElement m1 = activeElement m
  ∧ ∃ m2, menu_dispatch Escape m1 = (Normal tt, m2) ∧ isOpen m2 = false
     ∧ "open" ∉ menu_classes m2.
Proof.
  intros Hclosed Hfoc. unfold toggleMenu at 1. rewrite Hclosed. cbn [negb].
  unfold trapFocus. simpl. rewrite decide_True by done.
  eexists. split; [done|]. simpl. split_and!; try done; [set_solver|].
  eexists. split; [done|]. simpl. split; [done | set_solver].
Qed.

Lemma empty_menu_open_throws_witness :
  ∃ m1, toggleMenu (mkMenu false ∅ None [] 0 None) = (Throw "TypeError", m1)
        ∧ isOpen m1 = true.
Proof.
  destruct (empty_menu_open_throws (mkMenu false ∅ None [] 0 None) eq_refl eq_refl)
    as (m1 & Hrun & Hopen & _).
  by exists m1.
Defined.
End MobileMenu.

(** * Properties of the application object *)

Section Registry.
Import App.
Implicit Types (r : Registry) (name k : string) (c : JsValue).

(** X23.  Under every name but [__proto__], [registerComponent] stores the
    component: [getComponent] of that name then returns it, whatever was
    registered or inherited under the name before, and [getComponent] of
    every other name returns what it returned before. *)
Theorem register_then_get (name : string) (c : JsValue) (r : Registry) :
  name ≠ "__proto__" →
  ∃ r', registerComponent name c r = Some r'
  ∧ getComponent name r' = c
  ∧ ∀ k, k ≠ name → getComponent k r' = getComponent k r.
Proof.
  intros Hname. exists (mkRegistry (<[name := c]> (own r)) (inherits r)). split.
  - unfold registerComponent. destruct (own r !! name); [done|].
    by rewrite decide_False.
  - unfold getComponent, js_get. simpl. split.
    + rewrite lookup_insert_eq. by destruct (inherits r).
    + intros k Hk. by rewrite lookup_insert_ne.
Qed.

Lemma register_then_get_witness :
  ∃ r', registerComponent "constructor" (JsObject 7) empty_components = Some r'
        ∧ getComponent "constructor" r' = JsObject 7.
Proof.
  destruct (register_then_get "constructor" (JsObject 7) empty_components)
    as (r' & Hreg & Hget & _); [discriminate|].
  by exists r'.
Defined.

(** X24.  On the registry of a new application, [getComponent] of a name
    nobody registered is [undefined] only when the name is no property of
    [Object.prototype]: for "constructor", "toString" and the like it
    returns the inherited function, a truthy value.  And [__proto__]
    cannot hold a primitive: registering a string, number, boolean or
    [undefined] under it leaves the registry as it was, so [getComponent]
    does not give the value back. *)
Theorem unregistered_names (k : string) (c : JsValue) :
  (getComponent k empty_components = JsUndefined ↔ inherited k = None)
  ∧ (is_Some (inherited k) → truthy (getComponent k empty_components) = true)
  ∧ getComponent "constructor" empty_components = JsNativeFn "Object"
  ∧ (is_object c = false → c ≠ JsNull →
       registerComponent "__proto__" c empty_components = Some empty_components
       ∧ getComponent "__proto__" empty_components ≠ c).
Proof.
  unfold getComponent, js_get, empty_components. simpl. rewrite lookup_empty.
  assert (∀ v, inherited k = Some v → truthy v = true ∧ v ≠ JsUndefined) as Hinh.
  { unfold inherited. intros v. repeat case_decide; intros [= <-]; done. }
  split_and!.
  - destruct (inherited k) as [v|] eqn:E; simpl; [|done].
    destruct (Hinh v eq_refl) as [_ Hv]. split; [done | intros [=]].
  - intros [v Hv]. rewrite Hv. simpl. by apply Hinh.
  - done.
  - intros Hobj Hnull. unfold registerComponent. simpl. rewrite lookup_empty.
    rewrite Hobj. rewrite decide_False by done. split; [done|].
    intros <-. done.
Qed.

Lemma unregistered_names_witness :
  registerComponent "__proto__" (JsStr "menu") empty_components
  = Some empty_components.
Proof.
  apply (unregistered_names "menu" (JsStr "menu")); [reflexivity | discriminate].
Defined.
End Registry.

Section Announcer.
Import App.
Implicit Types (b : Body) (base pending : list (nat * string)).

Lemma announcing_announce base message b :
  announcing base b → announcing base (announceToScreenReader message b).
Proof.
  intros (pending & Hch & Hrm & Hnd & Hlt).
  exists (pending ++ [(created b, message)]).
  unfold announceToScreenReader. simpl. rewrite Hch, <- Hrm, <- app_assoc.
  split_and!; [done | by rewrite fmap_app | |].
  - rewrite app_assoc, <- Hch, fmap_app. simpl.
    apply NoDup_app. split_and!; [done | | apply NoDup_singleton].
    intros node Hnode ->%list_elem_of_singleton. apply Hlt in Hnode. lia.
  - rewrite app_assoc, <- Hch, fmap_app. simpl.
    intros node [Hnode | ->%list_elem_of_singleton]%elem_of_app; [|lia].
    apply Hlt in Hnode. lia.
Qed.

Lemma filter_other_nodes node (l : list (nat * string)) :
  node ∉ l.*1 → filter (λ c, c.1 ≠ node) l = l.
Proof.
  induction l as [|c l IH]; [done|]. rewrite fmap_cons, not_elem_of_cons.
  intros [Hc Hl]. rewrite filter_cons, decide_True by done. by rewrite IH.
Qed.

Lemma announcing_timer_fires base b :
  announcing base b →
  (timer_fires b).1 = Normal tt ∧ announcing base (timer_fires b).2
  ∧ length (removals (timer_fires b).2) = pred (length (removals b)).
Proof.
  intros (pending & Hch & Hrm & Hnd & Hlt). unfold timer_fires.
  destruct (removals b) as [|node rest] eqn:E.
  { cbn [fst snd]. rewrite E. split_and!; [done | | done].
    exists pending. by rewrite E. }
  destruct pending as [|[node' message] pending']; [done|].
  simpl in Hrm. injection Hrm as -> Hrest.
  unfold removeChild. simpl. rewrite decide_True.
  2:{ rewrite Hch, fmap_app. apply elem_of_app. right. by left. }
  cbn [fst snd]. split; [done|]. split; [|done].
  rewrite Hch, fmap_app, fmap_cons in Hnd.
  apply NoDup_app in Hnd as (Hbase & Hdisj & Hpend).
  apply NoDup_cons in Hpend as [Hfresh Hpend'].
  exists pending'. simpl.
  assert (filter (λ c, c.1 ≠ node) (children b) = base ++ pending') as ->.
  { rewrite Hch, filter_app, filter_cons. simpl.
    rewrite decide_False by (intros H; by apply H).
    rewrite !filter_other_nodes; [done | done |].
    intros Hin. apply (Hdisj node Hin). by left. }
  split_and!; [done | done | |].
  - rewrite fmap_app. apply NoDup_app. split_and!; [done | | done].
    intros x Hx Hx'. apply (Hdisj x Hx). by right.
  - intros x Hx. apply Hlt. rewrite Hch, fmap_app, fmap_cons.
    rewrite fmap_app in Hx. apply elem_of_app in Hx as [Hx|Hx];
      apply elem_of_app; [by left | right; by right].
Qed.

Lemma announcing_dispatch base e b :
  announcing base b →
  (body_dispatch e b).1 = Normal tt ∧ announcing base (body_dispatch e b).2.
Proof.
  intros Hb. destruct e as [message|theme|]; simpl.
  - split; [done|]. by apply announcing_announce.
  - split; [done|]. by apply announcing_announce.
  - by destruct (announcing_timer_fires base b Hb) as (? & ? & _).
Qed.

Lemma announcing_sequence base events b :
  announcing base b →
  (sequence (body_dispatch <$> events) b).1 = Normal tt
  ∧ announcing base (sequence (body_dispatch <$> events) b).2.
Proof.
  revert b. induction events as [|e events IH]; intros b Hb; [done|].
  rewrite fmap_cons. cbn [sequence].
  destruct (announcing_dispatch base e b Hb) as [Hret Hb'].
  destruct (body_dispatch e b) as [[[]|err] b1]; [|done].
  by apply IH.
Qed.

(** X25.  On a body whose nodes are distinct and with no announcement
    pending, through any sequence of calls of [announceToScreenReader],
    [themeChanged] events and timers firing, [removeChild] never raises,
    the body holds its original children followed by one node per pending
    timer, and once no timer is pending its children are exactly the
    original ones: every announcement is removed by its own timer. *)
Theorem announcements_are_removed (b : Body) (events : list BodyEvent) :
  NoDup (children b).*1 →
  (∀ node, node ∈ (children b).*1 → node < created b) →
  removals b = [] →
  let b' := (sequence (body_dispatch <$> events) b).2 in
  (sequence (body_dispatch <$> events) b).1 = Normal tt
  ∧ take (length (children b)) (children b') = children b
  ∧ length (children b') = length (children b) + length (removals b')
  ∧ (removals b' = [] → children b' = children b).
Proof.
  intros Hnd Hlt Hrm. cbv zeta.
  assert (announcing (children b) b) as Hb.
  { exists []. rewrite app_nil_r, Hrm. by split_and!. }
  destruct (announcing_sequence (children b) events b Hb)
    as [Hret (pending & Hch & Hpend & _)].
  split; [done|]. rewrite Hch. split_and!.
  - by rewrite take_app_length.
  - by rewrite length_app, <- Hpend, length_fmap.
  - intros Hnone. rewrite Hnone in Hpend. destruct pending; [|done].
    by rewrite app_nil_r.
Qed.

Lemma announcements_are_removed_witness :
  children
    (sequence
       (body_dispatch <$> [ThemeChanged "dark"; Announce "ola"; TimerFires; TimerFires])
       (mkBody [(0, "main")] 1 [])).2
  = [(0, "main")].
Proof.
  pose proof
    (announcements_are_removed (mkBody [(0, "main")] 1 [])
       [ThemeChanged "dark"; Announce "ola"; TimerFires; TimerFires]) as H.
  cbv zeta in H. apply H.
  - apply NoDup_singleton.
  - intros node ->%list_elem_of_singleton. simpl. lia.
  - reflexivity.
  - reflexivity.
Defined.
End Announcer.

(** * A second [init] *)

Lemma exec_init w :
  exec init w = labelled (wired (applied (currentTheme w) w)).
Proof. unfold exec. by rewrite init_eq. Qed.

Lemma click_listeners_init w :
  themeToggle w = true →
  click_listeners (exec init w) = S (click_listeners w)
  ∧ themeToggle (exec init w) = true
  ∧ currentTheme (exec init w) = currentTheme w.
Proof.
  intros Htt. rewrite exec_init.
  destruct w as [[items rfault wfault] mm tm cs dt hd tg ev cl kl ml tgl cur].
  simpl in Htt. subst. unfold applied, labelled, wired, stored. simpl.
  destruct wfault, mm; done.
Qed.

(** X26.  [init] registers its listeners again each time it runs.  On a
    page with the toggle, after the constructor and one more call of
    [init] the toggle has two click listeners, so one click runs
    [toggleTheme] twice: it dispatches two [themeChanged] events and
    leaves a mode that is "light" or "dark" where it was. *)
Theorem second_init_doubles_clicks (w0 : World) (t : Toggle) :
  toggle w0 = Some t → click_listeners w0 = 0 →
  let w := exec (constructor;; init) w0 in
  click_listeners w = 2
  ∧ step Click w = (toggleTheme;; toggleTheme) w
  ∧ (is_mode (currentTheme w) → currentTheme (exec (step Click) w) = currentTheme w)
  ∧ length (events (exec (step Click) w)) = length (events w) + 2.
Proof.
  intros Ht Hcl. cbv zeta.
  rewrite seq_exec by by rewrite (total_constructor w0).
  assert (click_listeners (exec constructor w0) = 1
          ∧ themeToggle (exec constructor w0) = true) as [Hc1 Htt1].
  { rewrite exec_constructor.
    assert (themeToggle (resolved w0) = true
            ∧ click_listeners (resolved w0) = 0) as [Hr1 Hr2].
    { unfold resolved. rewrite getStoredTheme_eq. simpl.
      rewrite Ht. by destruct (ls_read_fault _). }
    revert Hr1 Hr2. generalize (currentTheme (resolved w0)), (resolved w0).
    intros cur w Hr1 Hr2.
    destruct w as [[items rfault wfault] mm tm cs dt hd tg ev cl kl ml tgl cur'].
    simpl in *. subst. unfold applied, labelled, wired, stored. simpl.
    destruct wfault, mm; done. }
  destruct (click_listeners_init (exec constructor w0) Htt1) as (Hc2 & Htt2 & _).
  rewrite Hc1 in Hc2. revert Hc2 Htt2. generalize (exec init (exec constructor w0)).
  intros w Hc Htt.
  assert (step Click w = (toggleTheme;; toggleTheme) w) as Hstep.
  { simpl. unfold mbind at 1, M_bind, gets. rewrite Hc. simpl.
    unfold on_click, mbind, M_bind, mret, M_ret.
    rewrite (total_toggleTheme w).
    by destruct (toggleTheme (exec toggleTheme w)) as [[[]|e] w']. }
  split; [done|]. split; [done|].
  assert (exec (step Click) w = exec (toggleTheme;; toggleTheme) w) as ->
    by (unfold exec; by rewrite Hstep).
  rewrite seq_exec by by rewrite (total_toggleTheme w).
  split.
  - intros Hmode. rewrite !currentTheme_toggleTheme. unfold flipped.
    by destruct Hmode as [-> | ->].
  - rewrite !exec_toggleTheme, !events_pressed, !exec_applyTheme, !events_applied.
    rewrite events_pressed, events_applied, !length_app. simpl. lia.
Qed.

Lemma second_init_doubles_clicks_witness :
  currentTheme (exec (step Click) (exec (constructor;; init) (page None true)))
  = currentTheme (exec (constructor;; init) (page None true)).
Proof.
  pose proof
    (second_init_doubles_clicks (page None true) (mkToggle None "")
       eq_refl eq_refl) as H.
  cbv zeta in H. apply H. right. reflexivity.
Defined.
